(** * sftp-to-papertrail: the log-shipping pipeline of [index.js]

    A shallow embedding of [index.js] and the properties of its
    specification.  JavaScript strings are sequences of UTF-16 code units,
    the environment is a finite map of the variables that are set, read
    as the properties of [process.env], and the asynchronous part of the
    module (promises settled by the callbacks of S3, KMS, the SFTP client
    and the Papertrail transport) is a reactive state machine: the
    synchronous code of the module runs to completion on every external
    event and records the external operations it performs in a trace.
    An event is the completion of one outstanding operation; the promise
    reactions it makes ready (microtasks) run within the same step, before
    the next event, as on Node's event loop.

    Informational console output through [log] is not part of the model;
    the [console.warn] of [getLogFileStore] is. *)

From Stdlib Require Import ZArith NArith List Ascii String.
From Stdlib.Strings Require Import Byte.
From stdpp Require Import base decidable option list gmap.

Local Open Scope list_scope.

(** ** JavaScript values and strings *)

(** A string is the list of its UTF-16 code units. *)
Abbreviation jsstring := (list N).

(** The code units of an ASCII literal. *)
Fixpoint lit (s : string) : jsstring :=
  match s with
  | EmptyString => []
  | String a s' => N_of_ascii a :: lit s'
  end.

(** ['\n'] *)
Definition LF : N := 10%N.

(** The values that reach a truthiness test or a default argument in
    [index.js]: [undefined], [null], booleans, integer numbers (the only
    number of the module is the literal [22]), [NaN], strings, and what a
    lookup in [process.env] finds on [Object.prototype]. *)
Inductive jsval : Type :=
| JUndefined
| JNull
| JBool (b : bool)
| JNum (z : Z)
| JNaN
| JStr (s : jsstring)
| JInherited (name : jsstring).   (* Object.prototype[ name ]: a function, or an object *)

(** ECMAScript ToBoolean. *)
Definition truthy (v : jsval) : bool :=
  match v with
  | JUndefined | JNull | JNaN => false
  | JBool b => b
  | JNum z => negb (z =? 0)%Z
  | JStr [] => false
  | JStr (_ :: _) => true
  | JInherited _ => true
  end.

(** A slot that holds either [undefined] or a string, as [data[OLD]]. *)
Definition ofOption (o : option jsstring) : jsval :=
  match o with
  | Some s => JStr s
  | None => JUndefined
  end.

(** ECMAScript (2016 and later) WhiteSpace and LineTerminator code units,
    the ones [String.prototype.trim] strips. *)
Definition isWhiteSpace (c : N) : bool :=
  match c with
  | 9 | 10 | 11 | 12 | 13 | 32 | 160 | 5760
  | 8232 | 8233 | 8239 | 8287 | 12288 | 65279 => true
  | _ => (8192 <=? c) && (c <=? 8202)
  end%N.

Fixpoint trimStart (s : jsstring) : jsstring :=
  match s with
  | [] => []
  | c :: s' => if isWhiteSpace c then trimStart s' else s
  end.

Definition trimEnd (s : jsstring) : jsstring := rev (trimStart (rev s)).

(** [String.prototype.trim] *)
Definition trim (s : jsstring) : jsstring := trimEnd (trimStart s).

(** [String.prototype.split] with a separator of one code unit: the empty
    string splits into one empty piece. *)
Fixpoint split (sep : N) (s : jsstring) : list jsstring :=
  match s with
  | [] => [[]]
  | c :: s' =>
      if (c =? sep)%N then [] :: split sep s'
      else match split sep s' with
           | piece :: pieces => (c :: piece) :: pieces
           | [] => [[c]]
           end
  end.

(** [Array.prototype.join] on an array of strings. *)
Fixpoint join (sep : jsstring) (xs : list jsstring) : jsstring :=
  match xs with
  | [] => []
  | [x] => x
  | x :: xs' => x ++ sep ++ join sep xs'
  end.

(** [Array.prototype.indexOf] on an array of strings: the first index
    holding a strictly equal string, [-1] when there is none. *)
Fixpoint indexOfFrom (i : Z) (xs : list jsstring) (x : jsstring) : Z :=
  match xs with
  | [] => (-1)%Z
  | y :: ys => if decide (y = x) then i else indexOfFrom (i + 1)%Z ys x
  end.

Definition indexOf (xs : list jsstring) (x : jsstring) : Z := indexOfFrom 0 xs x.

(** A text given by its lines, for the examples. *)
Definition text (ls : list string) : jsstring := join [LF] (map lit ls).

(** ** [compareLogFiles] *)

(** [oldContents] is what [getLogFileStore] resolved with: [undefined]
    ([None]) or the stored text. *)
Definition compareLogFiles (oldContents : option jsstring) (newContents : jsstring)
  : jsstring :=
  match oldContents with
  | None => []                                   (* ! undefined *)
  | Some old =>
      if negb (truthy (JStr old)) then []        (* ! '' *)
      else
        let oldLines := List.filter (fun _ => true) (split LF old) in
        let newLines := List.filter (fun _ => true) (split LF newContents) in
        let difference :=
          List.filter (fun line => (0 >? indexOf oldLines line)%Z) newLines in
        trim (join [LF] difference)
  end.

(** ** [getEnv] *)

Inductive error : Type := Error (message : jsstring).

(** The names of the properties of [Object.prototype].  [process.env] is
    an object whose own properties are the variables that are set, and it
    inherits these. *)
Definition ObjectPrototype : list jsstring :=
  [lit "constructor"; lit "__defineGetter__"; lit "__defineSetter__";
   lit "hasOwnProperty"; lit "__lookupGetter__"; lit "__lookupSetter__";
   lit "isPrototypeOf"; lit "propertyIsEnumerable"; lit "toString";
   lit "valueOf"; lit "__proto__"; lit "toLocaleString"].

(** [process.env[ envName ]]: the value of the variable when it is set
    (the empty string included), otherwise what the prototype holds under
    that name, otherwise [undefined]. *)
Definition process_env (env : gmap jsstring jsstring) (envName : jsstring) : jsval :=
  match env !! envName with
  | Some v => JStr v
  | None =>
      if bool_decide (envName ∈ ObjectPrototype) then JInherited envName
      else JUndefined
  end.

(** [getEnv] returns a value or throws. *)
Definition getEnv (env : gmap jsstring jsstring) (envName : jsstring)
  (defaultValue : jsval) : error + jsval :=
  if truthy (process_env env envName) then inr (process_env env envName)
  else if truthy defaultValue then inr defaultValue
  else inl (Error (lit "Please set " ++ envName ++ lit ".")).

(** [maybePlural] *)
Definition maybePlural (number : Z) (singular plural : jsstring) : jsstring :=
  if (1 =? number)%Z then singular else plural.

(** ** Configuration *)

(** The object [getConfig] returns, with the fields the module reads. *)
Record sftpConfig : Type := {
  sftp_host : jsstring;
  sftp_port : jsval;
  sftp_username : jsstring;
  sftp_password : jsstring;
  sftp_path : jsstring
}.

Record s3Config : Type := {
  s3_bucket : jsstring;
  s3_region : jsstring;
  s3_path : jsstring
}.

Record papertrailConfig : Type := {
  pt_host : jsstring;
  pt_port : jsstring;
  pt_hostname : jsstring;
  pt_program : jsstring
}.

Record config : Type := {
  sftp : sftpConfig;
  s3 : s3Config;
  papertrail : papertrailConfig
}.

(** [config.password = password] *)
Definition setPassword (c : sftpConfig) (password : jsstring) : sftpConfig :=
  {| sftp_host := sftp_host c; sftp_port := sftp_port c;
     sftp_username := sftp_username c; sftp_password := password;
     sftp_path := sftp_path c |}.

(** ** Buffers *)

(** The [Buffer] the module makes, [Buffer.from( encrypted, 'base64' )]:
    it is handed to KMS and never read by the module, and it is given here
    by the string and the encoding it is made from; its bytes are what
    Node's decoder makes of them. *)
Inductive buffer : Type :=
| Buffer_from (s : jsstring) (encoding : string).

(** [buf.toString( 'ascii' )] on the bytes of a buffer: one code unit for
    each byte, with the highest bit of the byte cleared. *)
Definition toString_ascii (bytes : list byte) : jsstring :=
  map (fun b => N.land (Byte.to_N b) 127) bytes.

(** ** External operations and their completions *)

(** What the module does to the outside world, in the order it does it. *)
Inductive action : Type :=
| NewS3 (region : jsstring)                      (* new aws.S3({ region }) *)
| S3GetObject (Bucket Key : jsstring)            (* s3.getObject *)
| ConsoleWarn (e : error)                        (* console.warn *)
| KmsDecrypt (CiphertextBlob : buffer)           (* kms.decrypt *)
| SftpConnect (c : sftpConfig)                   (* client.connect *)
| SftpGet (path : jsstring)                      (* client.get *)
| SftpEnd                                        (* client.end *)
| S3PutObject (Body Bucket Key : jsstring)       (* s3.putObject *)
| PapertrailOpen (c : papertrailConfig)          (* new winston.transports.Papertrail *)
| LoggerInfo (line : jsstring)                   (* logger.info *)
| LoggerClose                                    (* logger.close *)
| Callback (r : error + list unit).              (* callback( error ) / callback( null, result ) *)

(** What the outside world answers: each event runs one of the callbacks
    the module registered. *)
Inductive event : Type :=
| GetObjectCb (r : error + jsstring)     (* s3.getObject callback: error, or the decoded Body *)
| DecryptCb (r : error + list byte)      (* kms.decrypt callback: error, or the bytes of data.Plaintext *)
| ConnectSettled (r : option error)      (* client.connect rejects with an error or resolves *)
| GetSettled (r : option error)          (* client.get rejects or resolves with a stream *)
| StreamData (chunk : jsstring)          (* stream 'data' *)
| StreamEnd                              (* stream 'end' *)
| StreamError (e : error)                (* stream 'error' *)
| PutObjectCb (r : option error)         (* s3.putObject callback *)
| PapertrailError (e : error)            (* transport 'error' *)
| PapertrailConnect.                     (* transport 'connect' *)

(** ** Promises *)

Inductive promise (A : Type) : Type :=
| Pending
| Fulfilled (v : A)
| Rejected (e : error).
Arguments Pending {A}.
Arguments Fulfilled {A} v.
Arguments Rejected {A} e.

(** [resolve(v)] and [reject(e)] only act on a pending promise. *)
Definition resolve {A} (v : A) (p : promise A) : promise A :=
  match p with Pending => Fulfilled v | _ => p end.

Definition reject {A} (e : error) (p : promise A) : promise A :=
  match p with Pending => Rejected e | _ => p end.

(** [Promise.all]: rejected as soon as one element is, fulfilled with all
    the values once every element is. *)
Fixpoint Promise_all {A} (ps : list (promise A)) : promise (list A) :=
  match ps with
  | [] => Fulfilled []
  | p :: ps' =>
      match p, Promise_all ps' with
      | Rejected e, _ => Rejected e
      | _, Rejected e => Rejected e
      | Pending, _ => Pending
      | _, Pending => Pending
      | Fulfilled v, Fulfilled vs => Fulfilled (v :: vs)
      end
  end.

(** [Promise.all( getResult )], whose two elements resolve with values of
    different kinds. *)
Definition Promise_all2 {A B} (p : promise A) (q : promise B) : promise (A * B) :=
  match p, q with
  | Rejected e, _ => Rejected e
  | _, Rejected e => Rejected e
  | Pending, _ => Pending
  | _, Pending => Pending
  | Fulfilled a, Fulfilled b => Fulfilled (a, b)
  end.

(** ** The state of one invocation *)

(** How far the promise chain of [getLogFileLatest] has come. *)
Inductive fetchStage : Type :=
| Decrypting                          (* kms.decrypt is outstanding *)
| Connecting                          (* client.connect is outstanding *)
| Getting                             (* client.get is outstanding *)
| Streaming (chunks : list jsstring)  (* the 'data' and 'end' handlers are registered *)
| Settled.                            (* resolve or reject has been called *)

(** How far the promise chain of [exports.handler] has come. *)
Inductive phase : Type :=
| Fetching      (* waiting for Promise.all( getResult ) *)
| Sending       (* the first then-callback ran; waiting for Promise.all( sendResult ) *)
| Done.         (* callback has been called *)

Record state : Type := {
  st_s3 : bool;                        (* the module-level [s3] handle exists *)
  st_old : promise (option jsstring);  (* getResult[0], from getLogFileStore *)
  st_new : promise jsstring;           (* getResult[1], from getLogFileLatest *)
  st_stage : fetchStage;
  st_session : bool;                   (* the SFTP session is open *)
  st_save : option (promise unit);     (* pushed to sendResult by saveToStore *)
  st_forward : option (promise unit);  (* pushed to sendResult by sendToPapertrail *)
  st_logLines : jsstring;              (* logLines, closed over by the transport handlers *)
  st_transport : bool;                 (* the Papertrail transport is open *)
  st_phase : phase
}.

Definition set_s3 (v : bool) (s : state) : state :=
  {| st_s3 := v; st_old := st_old s; st_new := st_new s; st_stage := st_stage s;
     st_session := st_session s; st_save := st_save s; st_forward := st_forward s;
     st_logLines := st_logLines s; st_transport := st_transport s;
     st_phase := st_phase s |}.

Definition set_old (v : promise (option jsstring)) (s : state) : state :=
  {| st_s3 := st_s3 s; st_old := v; st_new := st_new s; st_stage := st_stage s;
     st_session := st_session s; st_save := st_save s; st_forward := st_forward s;
     st_logLines := st_logLines s; st_transport := st_transport s;
     st_phase := st_phase s |}.

Definition set_new (v : promise jsstring) (s : state) : state :=
  {| st_s3 := st_s3 s; st_old := st_old s; st_new := v; st_stage := st_stage s;
     st_session := st_session s; st_save := st_save s; st_forward := st_forward s;
     st_logLines := st_logLines s; st_transport := st_transport s;
     st_phase := st_phase s |}.

Definition set_stage (v : fetchStage) (s : state) : state :=
  {| st_s3 := st_s3 s; st_old := st_old s; st_new := st_new s; st_stage := v;
     st_session := st_session s; st_save := st_save s; st_forward := st_forward s;
     st_logLines := st_logLines s; st_transport := st_transport s;
     st_phase := st_phase s |}.

Definition set_session (v : bool) (s : state) : state :=
  {| st_s3 := st_s3 s; st_old := st_old s; st_new := st_new s; st_stage := st_stage s;
     st_session := v; st_save := st_save s; st_forward := st_forward s;
     st_logLines := st_logLines s; st_transport := st_transport s;
     st_phase := st_phase s |}.

Definition set_save (v : option (promise unit)) (s : state) : state :=
  {| st_s3 := st_s3 s; st_old := st_old s; st_new := st_new s; st_stage := st_stage s;
     st_session := st_session s; st_save := v; st_forward := st_forward s;
     st_logLines := st_logLines s; st_transport := st_transport s;
     st_phase := st_phase s |}.

Definition set_forward (v : option (promise unit)) (s : state) : state :=
  {| st_s3 := st_s3 s; st_old := st_old s; st_new := st_new s; st_stage := st_stage s;
     st_session := st_session s; st_save := st_save s; st_forward := v;
     st_logLines := st_logLines s; st_transport := st_transport s;
     st_phase := st_phase s |}.

Definition set_logLines (v : jsstring) (s : state) : state :=
  {| st_s3 := st_s3 s; st_old := st_old s; st_new := st_new s; st_stage := st_stage s;
     st_session := st_session s; st_save := st_save s; st_forward := st_forward s;
     st_logLines := v; st_transport := st_transport s;
     st_phase := st_phase s |}.

Definition set_transport (v : bool) (s : state) : state :=
  {| st_s3 := st_s3 s; st_old := st_old s; st_new := st_new s; st_stage := st_stage s;
     st_session := st_session s; st_save := st_save s; st_forward := st_forward s;
     st_logLines := st_logLines s; st_transport := v;
     st_phase := st_phase s |}.

Definition set_phase (v : phase) (s : state) : state :=
  {| st_s3 := st_s3 s; st_old := st_old s; st_new := st_new s; st_stage := st_stage s;
     st_session := st_session s; st_save := st_save s; st_forward := st_forward s;
     st_logLines := st_logLines s; st_transport := st_transport s;
     st_phase := v |}.

(** A piece of synchronous code: it changes the state and performs
    external operations in order. *)
Definition proc : Type := state -> state * list action.

Definition skip : proc := fun s => (s, []).

Definition emit (a : action) : proc := fun s => (s, [a]).

Definition emits (acts : list action) : proc := fun s => (s, acts).

Definition update (f : state -> state) : proc := fun s => (f s, []).

Definition seq (p q : proc) : proc := fun s =>
  let '(s1, a1) := p s in
  let '(s2, a2) := q s1 in
  (s2, a1 ++ a2).

Notation "p ;; q" := (seq p q) (at level 100, q at level 200, right associativity).

Definition when (c : state -> bool) (p : proc) : proc := fun s =>
  if c s then p s else (s, []).

(** ** The functions of [index.js] *)

Definition connectToS3 (region : jsstring) : proc :=
  emit (NewS3 region) ;; update (set_s3 true).

(** The executor of [getLogFileStore]: the promise it returns is [st_old]. *)
Definition getLogFileStore (c : s3Config) : proc :=
  when (fun s => negb (st_s3 s)) (connectToS3 (s3_region c)) ;;
  emit (S3GetObject (s3_bucket c) (s3_path c)).

(** The callback [getLogFileStore] passes to [s3.getObject]; the executor
    only takes [resolve]. *)
Definition getLogFileStore_cb (r : error + jsstring) : proc :=
  match r with
  | inl e =>
      emit (ConsoleWarn e) ;;
      update (fun s => set_old (resolve None (st_old s)) s)        (* resolve() *)
  | inr body =>
      update (fun s => set_old (resolve (Some body) (st_old s)) s) (* resolve( decoder.write( data.Body ) ) *)
  end.

(** [decrypt]: [resolve( encrypted )] outside Lambda, which lets the
    continuation [k] run without any external operation; [kms.decrypt]
    inside. *)
Definition decrypt (isLambda : bool) (encrypted : jsstring) (k : jsstring -> proc) : proc :=
  if negb isLambda then k encrypted
  else emit (KmsDecrypt (Buffer_from encrypted "base64")) ;; update (set_stage Decrypting).

(** The callback [decrypt] passes to [kms.decrypt], on success:
    [resolve( data.Plaintext.toString( 'ascii' ) )]. *)
Definition decrypt_cb (Plaintext : list byte) (k : jsstring -> proc) : proc :=
  k (toString_ascii Plaintext).

(** [config.password = password; return client.connect( config );] *)
Definition getLogFileLatest_connect (c : sftpConfig) (password : jsstring) : proc :=
  emit (SftpConnect (setPassword c password)) ;; update (set_stage Connecting).

(** The executor of [getLogFileLatest]: the promise it returns is [st_new]. *)
Definition getLogFileLatest (isLambda : bool) (c : sftpConfig) : proc :=
  decrypt isLambda (sftp_password c) (getLogFileLatest_connect c).

(** [.catch( ( error ) => { reject( error ); } )] *)
Definition getLogFileLatest_catch (e : error) : proc :=
  update (fun s => set_stage Settled (set_new (reject e (st_new s)) s)).

(** The stream's 'end' handler. *)
Definition getLogFileLatest_end (chunks : list jsstring) : proc :=
  let contents := trim (join [] chunks) in
  emit SftpEnd ;; update (set_session false) ;;
  update (fun s => set_stage Settled (set_new (resolve contents (st_new s)) s)).

(** The reactions of [getLogFileLatest]'s chain, each to the completion it
    is waiting for.  The stream gets a 'data' and an 'end' listener and no
    other: on its 'error' no code of the module runs. *)
Definition getLogFileLatest_on (c : sftpConfig) (ev : event) : proc := fun s =>
  match st_stage s, ev with
  | Decrypting, DecryptCb (inr Plaintext) =>
      decrypt_cb Plaintext (getLogFileLatest_connect c) s
  | Decrypting, DecryptCb (inl e) => getLogFileLatest_catch e s
  | Connecting, ConnectSettled None =>
      (update (set_session true) ;; emit (SftpGet (sftp_path c)) ;;
       update (set_stage Getting)) s
  | Connecting, ConnectSettled (Some e) => getLogFileLatest_catch e s
  | Getting, GetSettled None => update (set_stage (Streaming [])) s
  | Getting, GetSettled (Some e) => getLogFileLatest_catch e s
  | Streaming chunks, StreamData chunk =>
      update (set_stage (Streaming (chunks ++ [chunk]))) s          (* chunks.push( chunk ) *)
  | Streaming chunks, StreamEnd => getLogFileLatest_end chunks s
  | _, _ => (s, [])
  end.

(** The executor of [saveToStore]: the promise it returns is [st_save]. *)
Definition saveToStore (contents : jsstring) (c : s3Config) : proc :=
  when (fun s => negb (st_s3 s)) (connectToS3 (s3_region c)) ;;
  emit (S3PutObject contents (s3_bucket c) (s3_path c)) ;;
  update (set_save (Some Pending)).

(** [if ( error ) reject( error ); else resolve();] *)
Definition saveToStore_cb (r : option error) : proc :=
  update (fun s =>
    set_save (match r with
              | Some e => reject e
              | None => resolve tt
              end <$> st_save s) s).

(** The executor of [sendToPapertrail]: the promise it returns is
    [st_forward]. *)
Definition sendToPapertrail (logLines : jsstring) (c : papertrailConfig) : proc :=
  emit (PapertrailOpen c) ;;
  update (fun s => set_forward (Some Pending) (set_logLines logLines (set_transport true s))).

Definition sendToPapertrail_onError (e : error) : proc :=
  update (fun s => set_forward (reject e <$> st_forward s) s).

Definition sendToPapertrail_onConnect : proc := fun s =>
  let lines := split LF (st_logLines s) in
  (emits (map LoggerInfo lines) ;; emit LoggerClose ;;
   update (fun s => set_forward (resolve tt <$> st_forward s) (set_transport false s))) s.

(** [sendResult], in push order. *)
Definition sendResult (s : state) : list (promise unit) :=
  option_list (st_save s) ++ option_list (st_forward s).

(** The first then-callback of [exports.handler], up to its [return]. *)
Definition handler_onData (cfg : config) (old : option jsstring) (new : jsstring) : proc :=
  let newLogLines := compareLogFiles old new in
  (if truthy (JStr newLogLines) || negb (truthy (ofOption old))
   then saveToStore new (s3 cfg) else skip) ;;
  (if truthy (JStr newLogLines)
   then sendToPapertrail newLogLines (papertrail cfg) else skip) ;;
  update (set_phase Sending).

(** [callback( null, result )] in the second then-callback,
    [callback( error )] in the catch-callback. *)
Definition handler_settle (r : error + list unit) : proc :=
  emit (Callback r) ;; update (set_phase Done).

(** The part of the chain that waits for [Promise.all( sendResult )]. *)
Definition handler_sending : proc := fun s =>
  match Promise_all (sendResult s) with
  | Fulfilled result => handler_settle (inr result) s
  | Rejected e => handler_settle (inl e) s
  | Pending => (s, [])
  end.

(** The promise chain of [exports.handler], run as far as the settled
    promises allow. *)
Definition handler_chain (cfg : config) : proc := fun s =>
  match st_phase s with
  | Fetching =>
      match Promise_all2 (st_old s) (st_new s) with
      | Fulfilled (old, new) => (handler_onData cfg old new ;; handler_sending) s
      | Rejected e => handler_settle (inl e) s
      | Pending => (s, [])
      end
  | Sending => handler_sending s
  | Done => (s, [])
  end.

(** An event runs the callback registered for it, if the operation it
    completes is outstanding. *)
Definition dispatch (cfg : config) (ev : event) : proc := fun s =>
  match ev with
  | GetObjectCb r =>
      match st_old s with
      | Pending => getLogFileStore_cb r s
      | _ => (s, [])
      end
  | DecryptCb _ | ConnectSettled _ | GetSettled _ | StreamData _ | StreamEnd
  | StreamError _ =>
      getLogFileLatest_on (sftp cfg) ev s
  | PutObjectCb r =>
      match st_save s with
      | Some Pending => saveToStore_cb r s
      | _ => (s, [])
      end
  | PapertrailError e =>
      if st_transport s then sendToPapertrail_onError e s else (s, [])
  | PapertrailConnect =>
      if st_transport s then sendToPapertrail_onConnect s else (s, [])
  end.

(** One turn of the event loop: the callback, then every reaction of the
    handler's chain that has become ready. *)
Definition step (cfg : config) (ev : event) : proc :=
  dispatch cfg ev ;; handler_chain cfg.

(** The state a fresh invocation starts from; [s3] survives from earlier
    invocations of the same process. *)
Definition init (s3client : bool) : state :=
  {| st_s3 := s3client; st_old := Pending; st_new := Pending; st_stage := Decrypting;
     st_session := false; st_save := None; st_forward := None;
     st_logLines := []; st_transport := false; st_phase := Fetching |}.

(** The synchronous part of [exports.handler], after [getConfig] returned
    [cfg]. *)
Definition handler (isLambda : bool) (cfg : config) (s3client : bool)
  : state * list action :=
  (getLogFileStore (s3 cfg) ;; getLogFileLatest isLambda (sftp cfg)) (init s3client).

(** An invocation followed by the events of [es]; the second component is
    the trace of everything done so far. *)
Fixpoint run (cfg : config) (st : state * list action) (es : list event)
  : state * list action :=
  match es with
  | [] => st
  | ev :: es' =>
      let '(s', acts) := step cfg ev (fst st) in
      run cfg (s', snd st ++ acts) es'
  end.

(** ** Vocabulary of the properties *)

(** The number of times a line occurs in an array of lines. *)
Definition occurrences (l : jsstring) (ls : list jsstring) : nat :=
  length (filter (λ x, x = l) ls).

(** The configuration and events of the examples. *)
Definition cfg0 : config :=
  {| sftp := {| sftp_host := lit "logs.example.com"; sftp_port := JNum 22;
                sftp_username := lit "reader"; sftp_password := lit "secret";
                sftp_path := lit "/var/log/app.log" |};
     s3 := {| s3_bucket := lit "snapshots"; s3_region := lit "us-east-1";
              s3_path := lit "logs.example.com//var/log/app.log" |};
     papertrail := {| pt_host := lit "logs.papertrailapp.com"; pt_port := lit "12345";
                      pt_hostname := lit "logs.example.com"; pt_program := lit "app" |} |}.

Definition err (s : string) : error := Error (lit s).

(** The events of a remote fetch that succeeds with [contents] in one chunk. *)
Definition fetched (contents : jsstring) : list event :=
  [ConnectSettled None; GetSettled None; StreamData contents; StreamEnd].

(** What a trace holds of each kind of operation. *)
Definition saves (tr : list action) : list (jsstring * jsstring * jsstring) :=
  omap (λ a, match a with S3PutObject body b k => Some (body, b, k) | _ => None end) tr.

Definition forwards (tr : list action) : list papertrailConfig :=
  omap (λ a, match a with PapertrailOpen c => Some c | _ => None end) tr.

Definition infos (tr : list action) : list jsstring :=
  omap (λ a, match a with LoggerInfo l => Some l | _ => None end) tr.

Definition callbacks (tr : list action) : list (error + list unit) :=
  omap (λ a, match a with Callback r => Some r | _ => None end) tr.

Definition sftpOps (tr : list action) : list action :=
  List.filter (λ a, match a with SftpConnect _ | SftpGet _ | SftpEnd => true | _ => false end) tr.

Definition storeReads (tr : list action) : list (jsstring * jsstring) :=
  omap (λ a, match a with S3GetObject b k => Some (b, k) | _ => None end) tr.

(** Neither a save nor a forward has been issued. *)
Definition quiet (s : state) (tr : list action) : Prop :=
  st_save s = None ∧ st_forward s = None ∧ st_transport s = false
  ∧ saves tr = [] ∧ forwards tr = [] ∧ infos tr = [].

(** The decisions of the first then-callback on [old] and [new]. *)
Definition savesWhen (old : option jsstring) (new : jsstring) : bool :=
  truthy (JStr (compareLogFiles old new)) || negb (truthy (ofOption old)).

Definition forwardsWhen (old : option jsstring) (new : jsstring) : bool :=
  truthy (JStr (compareLogFiles old new)).

(** The state and trace once the first then-callback has run on [old] and
    [new]. *)
Definition decided (cfg : config) (old : option jsstring) (new : jsstring)
    (s : state) (tr : list action) : Prop :=
  st_old s = Fulfilled old
  ∧ saves tr = (if savesWhen old new then [(new, s3_bucket (s3 cfg), s3_path (s3 cfg))] else [])
  ∧ forwards tr = (if forwardsWhen old new then [papertrail cfg] else [])
  ∧ match st_save s with Some _ => savesWhen old new = true | None => savesWhen old new = false end
  ∧ match st_forward s with
    | Some p => forwardsWhen old new = true ∧ st_logLines s = compareLogFiles old new
                ∧ match p with
                  | Pending => st_transport s = true
                  | Fulfilled _ => st_transport s = false
                  | Rejected _ => True
                  end
    | None => forwardsWhen old new = false ∧ st_transport s = false
    end
  ∧ match st_phase s with
    | Fetching => False
    | Sending => callbacks tr = [] ∧ Promise_all (sendResult s) = Pending
    | Done =>
        ∃ r, callbacks tr = [r]
             ∧ match r with
               | inr result => Promise_all (sendResult s) = Fulfilled result
               | inl e => st_save s = Some (Rejected e) ∨ st_forward s = Some (Rejected e)
               end
    end.

(** What holds of every state an invocation reaches, with its trace. *)
Definition Inv (cfg : config) (s : state) (tr : list action) : Prop :=
  (∀ e, st_old s ≠ Rejected e)
  ∧ match st_stage s with
    | Settled => st_new s ≠ Pending
    | Decrypting => st_new s = Pending ∧ sftpOps tr = []
    | _ => st_new s = Pending
    end
  ∧ match st_new s with
    | Pending => st_phase s = Fetching ∧ quiet s tr ∧ callbacks tr = []
    | Rejected e => st_phase s = Done ∧ quiet s tr ∧ callbacks tr = [inl e]
    | Fulfilled new =>
        match st_old s with
        | Fulfilled old => decided cfg old new s tr
        | _ => st_phase s = Fetching ∧ quiet s tr ∧ callbacks tr = []
        end
    end.

(** ** [getConfig] and the whole of [exports.handler] *)

Definition DEFAULT_SFTP_PORT : jsval := JNum 22.

Definition DEFAULT_AWS_REGION : jsstring := lit "us-east-1".

(** [const isLambda = process.env.AWS_EXECUTION_ENV ? true : false],
    evaluated once, on the environment the module is loaded in. *)
Definition isLambda (loadEnv : gmap jsstring jsstring) : bool :=
  truthy (process_env loadEnv (lit "AWS_EXECUTION_ENV")).

(** [getEnv] as [getConfig] calls it for a field it uses as a string: the
    name is none of [Object.prototype] and the default is absent or a
    string, so that the value is a string.  The branch for other values is
    never taken then, see [getEnvString_inv]. *)
Definition getEnvString (env : gmap jsstring jsstring) (envName : jsstring)
    (defaultValue : option jsstring) : error + jsstring :=
  match getEnv env envName (ofOption defaultValue) with
  | inl e => inl e
  | inr (JStr v) => inr v
  | inr _ => inl (Error (lit "Please set " ++ envName ++ lit "."))
  end.

(** A [throw] ends the evaluation of the object literal. *)
Definition bindE {A B} (r : error + A) (k : A → error + B) : error + B :=
  match r with
  | inl e => inl e
  | inr a => k a
  end.

Notation "'let!' x ':=' r 'in' k" := (bindE r (λ x, k))
  (at level 10, x name, r at level 100, k at level 200).

(** [getConfig], its calls of [getEnv] in the order in which the object
    literal evaluates them.  [path.parse( p ).name] belongs to Node's
    [path] module and is the parameter [parseName]; the constant fields
    [debug], [algorithms] and [colorize] are left out. *)
Definition getConfig (parseName : jsstring → jsstring) (env : gmap jsstring jsstring)
  : error + config :=
  let! host := getEnvString env (lit "STP_SFTP_HOST") None in
  let! port := getEnv env (lit "STP_SFTP_PORT") DEFAULT_SFTP_PORT in
  let! username := getEnvString env (lit "STP_SFTP_USERNAME") None in
  let! password := getEnvString env (lit "STP_SFTP_PASSWORD") None in
  let! path := getEnvString env (lit "STP_SFTP_PATH") None in
  let! bucket := getEnvString env (lit "STP_S3_BUCKET") None in
  let! region := getEnvString env (lit "STP_S3_REGION") (Some DEFAULT_AWS_REGION) in
  let! keyHost := getEnvString env (lit "STP_SFTP_HOST") None in
  let! keyPath := getEnvString env (lit "STP_SFTP_PATH") None in
  let! ptHost := getEnvString env (lit "STP_PAPERTRAIL_HOST") None in
  let! ptPort := getEnvString env (lit "STP_PAPERTRAIL_PORT") None in
  let! hostname := getEnvString env (lit "STP_SFTP_HOST") None in
  let! programPath := getEnvString env (lit "STP_SFTP_PATH") None in
  inr {| sftp := {| sftp_host := host; sftp_port := port; sftp_username := username;
                    sftp_password := password; sftp_path := path |};
         s3 := {| s3_bucket := bucket; s3_region := region;
                  s3_path := keyHost ++ lit "/" ++ keyPath |};
         papertrail := {| pt_host := ptHost; pt_port := ptPort; pt_hostname := hostname;
                          pt_program := parseName programPath |} |}.

(** [exports.handler] from its first line, in a module loaded in [loadEnv]
    and invoked in [env]: [getConfig] may throw, and then nothing else
    runs. *)
Definition exports_handler (parseName : jsstring → jsstring)
    (loadEnv env : gmap jsstring jsstring) (s3client : bool)
  : error + state * list action :=
  let! cfg := getConfig parseName env in
  inr (handler (isLambda loadEnv) cfg s3client).

(** The variables [getConfig] cannot do without, in the order in which it
    first reads them. *)
Definition requiredVars : list jsstring :=
  [lit "STP_SFTP_HOST"; lit "STP_SFTP_USERNAME"; lit "STP_SFTP_PASSWORD";
   lit "STP_SFTP_PATH"; lit "STP_S3_BUCKET"; lit "STP_PAPERTRAIL_HOST";
   lit "STP_PAPERTRAIL_PORT"].

(** The variable has a non-empty value. *)
Definition isSet (env : gmap jsstring jsstring) (name : jsstring) : Prop :=
  ∃ v, env !! name = Some v ∧ v ≠ [].

(** An environment with every required variable and no optional one. *)
Definition env0 : gmap jsstring jsstring :=
  list_to_map
    [(lit "STP_SFTP_HOST", lit "logs.example.com");
     (lit "STP_SFTP_USERNAME", lit "reader");
     (lit "STP_SFTP_PASSWORD", lit "secret");
     (lit "STP_SFTP_PATH", lit "/var/log/app.log");
     (lit "STP_S3_BUCKET", lit "snapshots");
     (lit "STP_PAPERTRAIL_HOST", lit "logs.papertrailapp.com");
     (lit "STP_PAPERTRAIL_PORT", lit "12345")].

(** ** More vocabulary *)

Definition newS3s (tr : list action) : list jsstring :=
  omap (λ a, match a with NewS3 region => Some region | _ => None end) tr.

Definition kmsOps (tr : list action) : list buffer :=
  omap (λ a, match a with KmsDecrypt c => Some c | _ => None end) tr.

(** The SFTP operations of a run happen in the order connect, get, end,
    and follow the progress of the fetch. *)
Definition sftpInv (cfg : config) (s : state) (tr : list action) : Prop :=
  ∃ password,
    let c := setPassword (sftp cfg) password in
    let path := sftp_path (sftp cfg) in
    match st_stage s with
    | Decrypting => st_new s = Pending ∧ st_session s = false ∧ sftpOps tr = []
    | Connecting => st_new s = Pending ∧ st_session s = false ∧ sftpOps tr = [SftpConnect c]
    | Getting | Streaming _ =>
        st_new s = Pending ∧ st_session s = true
        ∧ sftpOps tr = [SftpConnect c; SftpGet path]
    | Settled =>
        match st_new s with
        | Fulfilled contents =>
            st_session s = false ∧ trim contents = contents
            ∧ sftpOps tr = [SftpConnect c; SftpGet path; SftpEnd]
        | _ =>
            (st_session s = false ∧ (sftpOps tr = [] ∨ sftpOps tr = [SftpConnect c]))
            ∨ (st_session s = true ∧ sftpOps tr = [SftpConnect c; SftpGet path])
        end
    end.

(** The lines sent to the collector: none while the transport is open or
    was never opened, the lines of [logLines] once it has connected. *)
Definition forwardedInv (s : state) (tr : list action) : Prop :=
  match st_forward s with
  | None => infos tr = []
  | Some _ => infos tr = if st_transport s then [] else split LF (st_logLines s)
  end.
(** The stream is being read and nothing has been reported. *)
Definition reading (s : state) (tr : list action) : Prop :=
  (∃ chunks, st_stage s = Streaming chunks) ∧ st_new s = Pending
  ∧ st_phase s = Fetching ∧ (∀ e, st_old s ≠ Rejected e)
  ∧ st_session s = true ∧ callbacks tr = [].

(** The failures the promise chain of [getLogFileLatest] catches: the
    completion the chain is waiting for arrives with an error. *)
Definition fetchFailure (stage : fetchStage) (ev : event) (e : error) : Prop :=
  (stage = Decrypting ∧ ev = DecryptCb (inl e))
  ∨ (stage = Connecting ∧ ev = ConnectSettled (Some e))
  ∨ (stage = Getting ∧ ev = GetSettled (Some e)).

(** ** The outside world *)

(** The operations whose completion the module waits for. *)
Inductive operation : Type :=
| GetObjectOp      (* s3.getObject *)
| DecryptOp        (* kms.decrypt *)
| ConnectOp        (* client.connect *)
| GetOp            (* client.get *)
| TransferOp       (* the stream client.get resolved with *)
| PutObjectOp      (* s3.putObject *)
| TransportOp.     (* the Papertrail transport *)

#[global] Instance operation_eq_dec : EqDecision operation.
Proof. solve_decision. Defined.

Definition operations : list operation :=
  [GetObjectOp; DecryptOp; ConnectOp; GetOp; TransferOp; PutObjectOp; TransportOp].

(** The operation an action starts, if any. *)
Definition starts (a : action) : option operation :=
  match a with
  | S3GetObject _ _ => Some GetObjectOp
  | KmsDecrypt _ => Some DecryptOp
  | SftpConnect _ => Some ConnectOp
  | SftpGet _ => Some GetOp
  | S3PutObject _ _ _ => Some PutObjectOp
  | PapertrailOpen _ => Some TransportOp
  | _ => None
  end.

(** The operation an event belongs to. *)
Definition awaited (ev : event) : operation :=
  match ev with
  | GetObjectCb _ => GetObjectOp
  | DecryptCb _ => DecryptOp
  | ConnectSettled _ => ConnectOp
  | GetSettled _ => GetOp
  | StreamData _ | StreamEnd | StreamError _ => TransferOp
  | PutObjectCb _ => PutObjectOp
  | PapertrailError _ | PapertrailConnect => TransportOp
  end.

(** Whether the event is the last of its operation: a stream goes on
    after 'data', and the transport goes on trying after 'error'. *)
Definition ends (ev : event) : bool :=
  match ev with
  | StreamData _ | PapertrailError _ => false
  | _ => true
  end.

(** The operation an event brings with it: [client.get] resolves with the
    stream that is then read. *)
Definition opens (ev : event) : option operation :=
  match ev with
  | GetSettled None => Some TransferOp
  | _ => None
  end.

(** How many operations of each kind are outstanding. *)
Definition outstanding : Type := operation → nat.

(** How many operations of a kind the actions start. *)
Definition started (acts : list action) : outstanding := fun o =>
  length (filter (λ x, x = o) (omap starts acts)).

(** What is outstanding once [ev] has arrived and the module has answered
    it with [acts]. *)
Definition after (ev : event) (acts : list action) (out : outstanding) : outstanding :=
  fun o =>
    (if ends ev && bool_decide (o = awaited ev) then pred (out o) else out o)
    + (if bool_decide (opens ev = Some o) then 1 else 0)
    + started acts o.

(** The events of [es] arrive in state [s] with [out] outstanding: each
    must belong to an operation that is outstanding when it arrives.  The
    result is what is outstanding in the end. *)
Fixpoint schedule (cfg : config) (s : state) (out : outstanding) (es : list event)
  : option outstanding :=
  match es with
  | [] => Some out
  | ev :: es' =>
      match out (awaited ev) with
      | O => None
      | S _ =>
          let '(s', acts) := step cfg ev s in
          schedule cfg s' (after ev acts out) es'
      end
  end.

(** The events of [es] are a schedule of the invocation that leaves no
    operation outstanding. *)
Definition completes (isLambda : bool) (cfg : config) (s3client : bool)
    (es : list event) : bool :=
  match schedule cfg (handler isLambda cfg s3client).1
          (started (handler isLambda cfg s3client).2) es with
  | Some out => forallb (fun o => Nat.eqb (out o) 0) operations
  | None => false
  end.




(** * Properties *)

(** ** Strings and arrays *)

Lemma filter_const_true {A} (l : list A) : List.filter (fun _ => true) l = l.
Proof. induction l as [|x l IH]; simpl; [done | by rewrite IH]. Qed.

Lemma List_filter_decide {A} (f : A → bool) (P : A → Prop) `{!∀ x, Decision (P x)}
    (l : list A) :
  (∀ x, f x = bool_decide (P x)) → List.filter f l = filter P l.
Proof.
  intros Hf. induction l as [|x l IH]; [done|].
  simpl. rewrite Hf, IH. rewrite filter_cons.
  destruct (decide (P x)) as [HP|HP].
  - by rewrite bool_decide_eq_true_2.
  - by rewrite bool_decide_eq_false_2.
Qed.

Lemma indexOfFrom_ge i xs x : x ∈ xs → (i <= indexOfFrom i xs x)%Z.
Proof.
  revert i. induction xs as [|y ys IH]; intros i Hin; [by apply elem_of_nil in Hin|].
  simpl. destruct (decide (y = x)) as [->|Hne]; [lia|].
  apply elem_of_cons in Hin as [->|Hin]; [done|].
  specialize (IH (i + 1)%Z Hin). lia.
Qed.

Lemma indexOfFrom_absent i xs x : x ∉ xs → indexOfFrom i xs x = (-1)%Z.
Proof.
  revert i. induction xs as [|y ys IH]; intros i Hin; [done|].
  simpl. apply not_elem_of_cons in Hin as [Hne Hin].
  destruct (decide (y = x)) as [->|_]; [done|]. by apply IH.
Qed.

(** [0 > oldLines.indexOf( line )] holds exactly when the line is not an
    element of the array. *)
Lemma indexOf_negative xs x : (0 >? indexOf xs x)%Z = bool_decide (x ∉ xs).
Proof.
  unfold indexOf. destruct (decide (x ∈ xs)) as [Hin|Hin].
  - rewrite bool_decide_eq_false_2 by (intros H; by apply H).
    pose proof (indexOfFrom_ge 0 xs x Hin). rewrite Z.gtb_ltb. apply Z.ltb_ge. lia.
  - rewrite bool_decide_eq_true_2 by done.
    by rewrite indexOfFrom_absent.
Qed.

Lemma split_nonempty sep s : split sep s ≠ [].
Proof.
  destruct s as [|c s]; simpl; [done|].
  destruct (c =? sep)%N; [done|]. by destruct (split sep s).
Qed.

(** Splitting on a separator and joining on it again gives the text back. *)
Lemma join_split sep s : join [sep] (split sep s) = s.
Proof.
  induction s as [|c s IH]; [done|].
  simpl. destruct (c =? sep)%N eqn:Hc.
  - apply N.eqb_eq in Hc as ->.
    pose proof (split_nonempty sep s) as Hne.
    destruct (split sep s) as [|p ps]; [done|]. simpl in *. by rewrite IH.
  - destruct (split sep s) as [|p ps] eqn:Hs; [by destruct (split_nonempty sep s)|].
    simpl in *. destruct ps; simpl in *; by rewrite <- IH.
Qed.

(** No piece of a split contains the separator. *)
Lemma split_no_sep sep s : Forall (λ piece, sep ∉ piece) (split sep s).
Proof.
  induction s as [|c s IH]; simpl.
  - repeat constructor. apply not_elem_of_nil.
  - destruct (c =? sep)%N eqn:Hc.
    + constructor; [apply not_elem_of_nil|done].
    + apply N.eqb_neq in Hc.
      destruct (split sep s) as [|p ps].
      * repeat constructor. apply not_elem_of_cons. split; [congruence|apply not_elem_of_nil].
      * inversion IH; subst. constructor; [|done].
        apply not_elem_of_cons. split; [congruence|done].
Qed.

Lemma occurrences_filter (P : jsstring → Prop) `{!∀ x, Decision (P x)} l ls :
  occurrences l (filter P ls) = if decide (P l) then occurrences l ls else 0.
Proof.
  unfold occurrences. induction ls as [|x ls IH]; simpl.
  - by destruct (decide (P l)).
  - rewrite !filter_cons.
    destruct (decide (P x)) as [HPx|HPx]; destruct (decide (x = l)) as [->|Hne];
      rewrite ?filter_cons; repeat case_decide; simpl; try done; try congruence; lia.
Qed.

(** ** The diff computation *)

(** C1: for a non-empty old snapshot, [compareLogFiles] returns the
    newline-joined and trimmed batch of exactly the lines of the new
    snapshot whose text is not a line of the old snapshot: the batch is the
    order-preserving filter of the new lines, hence a subsequence of them,
    and a line that is absent from the old snapshot occurs in the batch as
    often as in the new snapshot, any other line not at all. *)
Theorem compareLogFiles_new_lines (oldContents newContents : jsstring) :
  oldContents ≠ [] →
  ∃ batch : list jsstring,
    compareLogFiles (Some oldContents) newContents = trim (join [LF] batch)
    ∧ batch = filter (λ line, line ∉ split LF oldContents) (split LF newContents)
    ∧ batch `sublist_of` split LF newContents
    ∧ ∀ line, occurrences line batch =
              if decide (line ∈ split LF oldContents) then 0
              else occurrences line (split LF newContents).
Proof.
  intros Hne.
  exists (filter (λ line, line ∉ split LF oldContents) (split LF newContents)).
  split; [|split; [done|split]].
  - unfold compareLogFiles. destruct oldContents as [|c old]; [done|]. simpl negb.
    cbv iota. rewrite !filter_const_true.
    by rewrite (List_filter_decide _ (λ line, line ∉ split LF (c :: old)))
      by (intros x; apply indexOf_negative).
  - apply sublist_filter.
  - intros line. rewrite occurrences_filter.
    destruct (decide (line ∈ split LF oldContents)); by case_decide.
Qed.

(** Scenario A of the specification. *)
Lemma compareLogFiles_new_lines_witness :
  ∃ batch : list jsstring,
    compareLogFiles (Some (text ["a"; "b"; "c"]%string)) (text ["a"; "b"; "c"; "d"]%string)
      = trim (join [LF] batch)
    ∧ batch = filter (λ line, line ∉ split LF (text ["a"; "b"; "c"]%string))
                (split LF (text ["a"; "b"; "c"; "d"]%string))
    ∧ batch `sublist_of` split LF (text ["a"; "b"; "c"; "d"]%string)
    ∧ ∀ line, occurrences line batch =
              if decide (line ∈ split LF (text ["a"; "b"; "c"]%string)) then 0
              else occurrences line (split LF (text ["a"; "b"; "c"; "d"]%string)).
Proof.
  apply (compareLogFiles_new_lines (text ["a"; "b"; "c"]%string)
           (text ["a"; "b"; "c"; "d"]%string)).
  vm_compute. discriminate.
Defined.

Example scenario_A_diff :
  compareLogFiles (Some (text ["a"; "b"; "c"]%string)) (text ["a"; "b"; "c"; "d"]%string)
  = lit "d".
Proof. reflexivity. Qed.

Example duplicates_kept :
  compareLogFiles (Some (lit "a")) (text ["x"; "a"; "x"; "y"]%string)
  = text ["x"; "x"; "y"]%string.
Proof. reflexivity. Qed.

(** C4: with no old snapshot, [compareLogFiles] returns the empty string
    whatever the new snapshot is, so never the contents of a non-empty new
    snapshot. *)
Theorem compareLogFiles_absent (newContents : jsstring) :
  compareLogFiles None newContents = []
  ∧ (newContents ≠ [] → compareLogFiles None newContents ≠ newContents).
Proof. split; [done|]. intros Hne. simpl. congruence. Qed.

Lemma compareLogFiles_absent_witness :
  compareLogFiles None (text ["x"; "y"]%string) = []
  ∧ compareLogFiles None (text ["x"; "y"]%string) ≠ text ["x"; "y"]%string.
Proof.
  destruct (compareLogFiles_absent (text ["x"; "y"]%string)) as [H1 H2].
  split; [exact H1|]. apply H2. vm_compute. discriminate.
Defined.

(** C7 as stated fails: with the empty string as old snapshot the guard
    [! oldContents] holds, and the result for ["x"] is empty, not ["x"]. *)
Lemma compareLogFiles_empty_old_counterexample :
  compareLogFiles (Some []) (lit "x") = [] ∧ compareLogFiles (Some []) (lit "x") ≠ lit "x".
Proof. split; [reflexivity | vm_compute; discriminate]. Qed.

(** C7, amended: an empty old snapshot is treated as an absent one, the
    result is empty for every new snapshot; the filtering branch is taken
    exactly for a non-empty old snapshot. *)
Theorem compareLogFiles_empty_old (newContents : jsstring) :
  compareLogFiles (Some []) newContents = []
  ∧ compareLogFiles (Some []) newContents = compareLogFiles None newContents.
Proof. split; reflexivity. Qed.

(** ** The configuration reader *)

Lemma process_env_own env envName :
  envName ∉ ObjectPrototype → process_env env envName = ofOption (env !! envName).
Proof.
  intros Hown. unfold process_env. destruct (env !! envName); [done|].
  by rewrite bool_decide_eq_false_2.
Qed.

Lemma process_env_inherited env envName :
  envName ∈ ObjectPrototype → env !! envName = None →
  process_env env envName = JInherited envName.
Proof. intros Hin Hl. unfold process_env. by rewrite Hl, bool_decide_eq_true_2. Qed.

(** C10 as stated fails for a name that [Object.prototype] has a property
    of: with no variable of that name the lookup finds the inherited
    function, which is truthy, so [getEnv] returns it and does not throw,
    whereas it throws when the variable is set to the empty string. *)
Lemma getEnv_spec_counterexample :
  getEnv ∅ (lit "toString") JUndefined = inr (JInherited (lit "toString"))
  ∧ getEnv {[ lit "toString" := [] ]} (lit "toString") JUndefined
    = inl (Error (lit "Please set toString."))
  ∧ ¬ ((∃ e, getEnv ∅ (lit "toString") JUndefined = inl e)
       ↔ truthy (ofOption ((∅ : gmap jsstring jsstring) !! lit "toString")) = false
         ∧ truthy JUndefined = false).
Proof.
  split; [by vm_compute|split; [by vm_compute|]].
  intros [_ Hthrows]. destruct Hthrows as [e He]; [by rewrite lookup_empty|].
  vm_compute in He. discriminate He.
Qed.

(** C10, amended: [getEnv] returns the value of the environment only when
    it is a non-empty string, and does return it then; for a name that is
    no property of [Object.prototype], an unset variable and one set to
    the empty string both give the default when the default is truthy and
    otherwise throw the error that names the variable; for a name that
    is such a property, the variable set to the empty string does the
    same, but the unset variable gives the inherited value whatever the
    default; and [getEnv] throws exactly when both [process.env[ envName ]]
    and the default are falsy. *)
Theorem getEnv_spec (env : gmap jsstring jsstring) (envName : jsstring)
    (defaultValue : jsval) :
  (∀ v, env !! envName = Some v → v ≠ [] → getEnv env envName defaultValue = inr (JStr v))
  ∧ (∀ v, env !! envName = Some v → getEnv env envName defaultValue = inr (JStr v) → v ≠ [])
  ∧ ((env !! envName = None ∧ envName ∉ ObjectPrototype) ∨ env !! envName = Some [] →
     getEnv env envName defaultValue =
       if truthy defaultValue then inr defaultValue
       else inl (Error (lit "Please set " ++ envName ++ lit ".")))
  ∧ (env !! envName = None → envName ∈ ObjectPrototype →
     getEnv env envName defaultValue = inr (JInherited envName))
  ∧ ((∃ e, getEnv env envName defaultValue = inl e)
     ↔ truthy (process_env env envName) = false ∧ truthy defaultValue = false)
  ∧ (envName ∉ ObjectPrototype → process_env env envName = ofOption (env !! envName)).
Proof.
  split; [|split; [|split; [|split; [|split]]]].
  - intros v Hl Hv. unfold getEnv, process_env. rewrite Hl. by destruct v.
  - intros v Hl. unfold getEnv, process_env. rewrite Hl.
    destruct v; [|done]. cbn [truthy].
    destruct (truthy defaultValue) eqn:Hd; [|done].
    intros [= ->]. discriminate Hd.
  - intros [[Hl Hown]|Hl]; unfold getEnv.
    + by rewrite (process_env_own _ _ Hown), Hl.
    + unfold process_env. by rewrite Hl.
  - intros Hl Hin. unfold getEnv. by rewrite (process_env_inherited _ _ Hin Hl).
  - unfold getEnv. destruct (truthy (process_env env envName));
      destruct (truthy defaultValue); split;
      try (intros [e He]; done); try (intros [? ?]; done); eauto.
  - apply process_env_own.
Qed.

Lemma getEnv_spec_witness :
  getEnv {[ lit "STP_SFTP_HOST" := lit "logs.example.com" ]} (lit "STP_SFTP_HOST") JUndefined
    = inr (JStr (lit "logs.example.com"))
  ∧ getEnv {[ lit "STP_SFTP_PORT" := [] ]} (lit "STP_SFTP_PORT") (JNum 22) = inr (JNum 22)
  ∧ getEnv ∅ (lit "STP_SFTP_PORT") (JNum 22) = inr (JNum 22)
  ∧ getEnv ∅ (lit "valueOf") (JNum 22) = inr (JInherited (lit "valueOf"))
  ∧ (∃ e, getEnv ∅ (lit "STP_S3_BUCKET") JUndefined = inl e).
Proof.
  split; [|split; [|split; [|split]]].
  - apply (getEnv_spec {[ lit "STP_SFTP_HOST" := lit "logs.example.com" ]}
             (lit "STP_SFTP_HOST") JUndefined).
    + apply lookup_singleton_eq.
    + discriminate.
  - apply (getEnv_spec {[ lit "STP_SFTP_PORT" := [] ]} (lit "STP_SFTP_PORT") (JNum 22)).
    right. apply lookup_singleton_eq.
  - apply (getEnv_spec ∅ (lit "STP_SFTP_PORT") (JNum 22)).
    left. split; [apply lookup_empty|].
    apply (bool_decide_eq_false_1 (lit "STP_SFTP_PORT" ∈ ObjectPrototype)).
    vm_compute. reflexivity.
  - apply (getEnv_spec ∅ (lit "valueOf") (JNum 22)).
    + apply lookup_empty.
    + apply (bool_decide_eq_true_1 (lit "valueOf" ∈ ObjectPrototype)).
      vm_compute. reflexivity.
  - apply (getEnv_spec ∅ (lit "STP_S3_BUCKET") JUndefined).
    split; vm_compute; reflexivity.
Defined.

(** ** The invocation as a state machine *)

Arguments compareLogFiles : simpl never.
Arguments trim : simpl never.
Arguments split : simpl never.

Lemma run_app cfg st es1 es2 :
  run cfg st (es1 ++ es2) = run cfg (run cfg st es1) es2.
Proof.
  revert st. induction es1 as [|ev es1 IH]; intros st; [done|].
  simpl. destruct (step cfg ev (fst st)) as [s' acts]. apply IH.
Qed.

Lemma saves_app tr1 tr2 : saves (tr1 ++ tr2) = saves tr1 ++ saves tr2.
Proof. apply omap_app. Qed.

Lemma forwards_app tr1 tr2 : forwards (tr1 ++ tr2) = forwards tr1 ++ forwards tr2.
Proof. apply omap_app. Qed.

Lemma infos_app tr1 tr2 : infos (tr1 ++ tr2) = infos tr1 ++ infos tr2.
Proof. apply omap_app. Qed.

Lemma callbacks_app tr1 tr2 : callbacks (tr1 ++ tr2) = callbacks tr1 ++ callbacks tr2.
Proof. apply omap_app. Qed.

Lemma storeReads_app tr1 tr2 : storeReads (tr1 ++ tr2) = storeReads tr1 ++ storeReads tr2.
Proof. apply omap_app. Qed.

Lemma sftpOps_app tr1 tr2 : sftpOps (tr1 ++ tr2) = sftpOps tr1 ++ sftpOps tr2.
Proof. apply List.filter_app. Qed.

Lemma infos_LoggerInfo ls : infos (map LoggerInfo ls) = ls.
Proof. induction ls as [|l ls IH]; [done|]. unfold infos in *. simpl. by f_equal. Qed.

Lemma saves_LoggerInfo ls : saves (map LoggerInfo ls) = [].
Proof. by induction ls. Qed.

Lemma forwards_LoggerInfo ls : forwards (map LoggerInfo ls) = [].
Proof. by induction ls. Qed.

Lemma callbacks_LoggerInfo ls : callbacks (map LoggerInfo ls) = [].
Proof. by induction ls. Qed.

Lemma sftpOps_LoggerInfo ls : sftpOps (map LoggerInfo ls) = [].
Proof. by induction ls. Qed.

Lemma storeReads_LoggerInfo ls : storeReads (map LoggerInfo ls) = [].
Proof. by induction ls. Qed.

Create Rewrite HintDb trace.
#[local] Hint Rewrite saves_app forwards_app infos_app callbacks_app storeReads_app
  sftpOps_app infos_LoggerInfo saves_LoggerInfo forwards_LoggerInfo callbacks_LoggerInfo
  sftpOps_LoggerInfo storeReads_LoggerInfo @app_nil_r : trace.

(** The invocation starts in a state that satisfies the invariant. *)
Lemma handler_Inv isLambda cfg s3client :
  Inv cfg (handler isLambda cfg s3client).1 (handler isLambda cfg s3client).2.
Proof.
  destruct isLambda, s3client; vm_compute; repeat split; by intros.
Qed.

Ltac use_trace :=
  autorewrite with trace;
  repeat match goal with
         | H : saves ?tr = _ |- context [saves ?tr] => rewrite H
         | H : forwards ?tr = _ |- context [forwards ?tr] => rewrite H
         | H : infos ?tr = _ |- context [infos ?tr] => rewrite H
         | H : callbacks ?tr = _ |- context [callbacks ?tr] => rewrite H
         | H : sftpOps ?tr = _ |- context [sftpOps ?tr] => rewrite H
         end.

(** Evaluate the step in [H : step cfg ev s = (s', acts)]. *)
Ltac eval_step H :=
  unfold step, dispatch, seq, handler_chain, handler_onData, handler_sending in H;
  cbn in H;
  repeat match type of H with
         | context [compareLogFiles ?o ?n] =>
             match goal with Hb : compareLogFiles o n = _ |- _ => rewrite Hb in H end
         end;
  cbn in H;
  cbv beta iota delta
    [set_s3 set_old set_new set_stage set_session set_save set_forward set_logLines
     set_transport set_phase st_s3 st_old st_new st_stage st_session st_save
     st_forward st_logLines st_transport st_phase] in H;
  injection H as <- <-.

Ltac finish :=
  cbn; use_trace; cbn;
  repeat match goal with
         | H : compareLogFiles ?o ?n = _ |- context [compareLogFiles ?o ?n] => rewrite H
         end;
  cbn;
  repeat match goal with
         | |- _ ∧ _ => split
         | |- ∀ _, _ => intro
         | |- ∃ _, _ ∧ _ => eexists; split; [reflexivity|]; cbn
         end;
  simplify_eq; eauto; try congruence.

(** In a state that satisfies the invariant the handler's chain has
    nothing left to do. *)
Lemma chain_stable cfg s tr : Inv cfg s tr → handler_chain cfg s = (s, []).
Proof.
  destruct s as [s3c old new stage session save forward logLines transport ph].
  unfold Inv, quiet, decided, handler_chain, handler_sending.
  cbn [st_old st_new st_stage st_save st_forward st_phase st_transport st_logLines].
  intros (Hold & _ & Hmain).
  destruct new as [|new0|en]; [|destruct old as [|old0|eo]|].
  - destruct Hmain as (-> & _). by destruct old as [|old0|eo]; [| |destruct (Hold eo)].
  - by destruct Hmain as (-> & _).
  - destruct Hmain as (_ & _ & _ & _ & _ & Hph).
    destruct ph; [done| |done]. destruct Hph as [_ Hall]. by rewrite Hall.
  - by destruct (Hold eo).
  - by destruct Hmain as (-> & _).
Qed.

(** An event whose callback does nothing leaves everything as it is. *)
Lemma step_idle cfg ev s tr s' acts :
  Inv cfg s tr → dispatch cfg ev s = (s, []) → step cfg ev s = (s', acts) →
  Inv cfg s' (tr ++ acts).
Proof.
  intros HI Hd Hstep. unfold step, seq in Hstep.
  rewrite Hd, (chain_stable _ _ _ HI) in Hstep. injection Hstep as <- <-.
  by rewrite app_nil_r.
Qed.

Ltac idle :=
  match goal with
  | HI : Inv _ _ _, Hstep : step _ _ _ = _ |- _ =>
      solve [refine (step_idle _ _ _ _ _ _ HI _ Hstep); reflexivity]
  end.

Lemma step_Inv cfg ev s tr s' acts :
  step cfg ev s = (s', acts) → Inv cfg s tr → Inv cfg s' (tr ++ acts).
Proof.
  destruct s as [s3c old new stage session save forward logLines transport ph].
  intros Hstep HI. pose proof HI as (Hold & Hstage & Hmain).
  unfold quiet in Hmain.
  cbn [st_old st_new st_stage st_save st_forward st_phase st_transport st_logLines]
    in Hold, Hstage, Hmain.
  destruct new as [|new0|en]; [|destruct old as [|old0|eo]|].
  - (* the remote fetch is outstanding *)
    destruct Hmain as (-> & (-> & -> & -> & Hs & Hf & Hi) & Hc).
    destruct ev as [[e|body]|[e|pw]|[e|]|[e|]|chunk| |e|[e|]|e|];
      try idle;
      destruct stage as [| | |chunks|];
      try solve [destruct Hstage; discriminate | discriminate Hstage | done];
      try idle;
      try match type of Hstage with _ ∧ _ => destruct Hstage as [_ Hsftp] end;
      destruct old as [|old0|eo]; try (by destruct (Hold eo));
      try idle.
    all: clear HI; unfold Inv, quiet, decided, savesWhen, forwardsWhen.
    all: try (eval_step Hstep; finish; fail).
    destruct (compareLogFiles old0 (trim (join [] chunks))) eqn:Hb;
      destruct s3c, old0 as [[|c o]|].
    all: eval_step Hstep; finish.
  - (* the store fetch is outstanding, the remote fetch is done *)
    destruct Hmain as (-> & (-> & -> & -> & Hs & Hf & Hi) & Hc).
    destruct stage as [| | |chunks|];
      try solve [destruct Hstage; discriminate | discriminate Hstage | done].
    destruct ev as [[e|body]|[e|pw]|[e|]|[e|]|chunk| |e|[e|]|e|];
      try idle.
    all: clear HI; unfold Inv, quiet, decided, savesWhen, forwardsWhen.
    + destruct (compareLogFiles None new0) eqn:Hb; destruct s3c.
      all: eval_step Hstep; finish.
    + destruct (compareLogFiles (Some body) new0) eqn:Hb; destruct s3c, body as [|c o].
      all: eval_step Hstep; finish.
  - (* both fetches are done: the first then-callback has run *)
    destruct stage as [| | |chunks|];
      try solve [destruct Hstage; discriminate | discriminate Hstage | done].
    destruct ev as [[e|body]|[e|pw]|[e|]|[e|]|chunk| |e|[e|]|e|];
      try idle.
    all: unfold decided, savesWhen, forwardsWhen in Hmain;
      cbn [st_old st_new st_stage st_save st_forward st_phase st_transport st_logLines]
        in Hmain;
      destruct Hmain as (_ & Hs & Hf & Hsave & Hfwd & Hph).
    all: destruct (compareLogFiles old0 new0) as [|c batch] eqn:Hb;
      destruct old0 as [[|c' o]|], save as [[| |es]|], forward as [[| |ef]|];
      cbn in Hsave, Hfwd; destruct_and?; try discriminate;
      destruct ph; cbn in Hph; destruct_and?; try done;
      try destruct Hph as ([er|res] & Hc & Hr); try discriminate;
      try (destruct Hr as [Hr|Hr]; try discriminate; injection Hr as ->).
    all: subst; try idle.
    all: try (destruct transport; try idle).
    all: clear HI; unfold Inv, quiet, decided, savesWhen, forwardsWhen.
    all: eval_step Hstep; finish.
  - by destruct (Hold eo).
  - (* the remote fetch has failed *)
    destruct Hmain as (-> & (-> & -> & -> & Hs & Hf & Hi) & Hc).
    destruct stage as [| | |chunks|];
      try solve [destruct Hstage; discriminate | discriminate Hstage | done].
    destruct ev as [[e|body]|[e|pw]|[e|]|[e|]|chunk| |e|[e|]|e|];
      try idle.
    all: destruct old as [|old0|eo]; try (by destruct (Hold eo));
      try idle.
    all: clear HI; unfold Inv, quiet, decided, savesWhen, forwardsWhen.
    all: eval_step Hstep; finish.
Qed.

Lemma run_Inv cfg es st :
  Inv cfg st.1 st.2 → Inv cfg (run cfg st es).1 (run cfg st es).2.
Proof.
  revert st. induction es as [|ev es IH]; intros [s tr] HI; [done|].
  simpl. destruct (step cfg ev s) as [s' acts] eqn:Hstep.
  apply IH. simpl. by eapply step_Inv.
Qed.

(** Every state an invocation reaches satisfies the invariant. *)
Lemma reachable_Inv isLambda cfg s3client es :
  Inv cfg (run cfg (handler isLambda cfg s3client) es).1
    (run cfg (handler isLambda cfg s3client) es).2.
Proof. apply run_Inv, handler_Inv. Qed.

(** *** What a step leaves alone *)

(** The handler's chain touches neither promise of [getResult], nor the
    progress and session of the remote fetch. *)
Lemma chain_frame cfg s :
  st_old (handler_chain cfg s).1 = st_old s
  ∧ st_new (handler_chain cfg s).1 = st_new s
  ∧ st_stage (handler_chain cfg s).1 = st_stage s
  ∧ st_session (handler_chain cfg s).1 = st_session s
  ∧ sftpOps (handler_chain cfg s).2 = [].
Proof.
  destruct s as [s3c old new stage session save forward logLines transport ph].
  unfold handler_chain, handler_onData, handler_sending, seq.
  cbn [st_phase st_old st_new].
  destruct ph.
  - destruct old as [|old0|eo], new as [|new0|en]; try done.
    cbn. destruct (compareLogFiles old0 new0), old0 as [[|c o]|], s3c;
      destruct save as [[| |es]|], forward as [[| |ef]|]; done.
  - destruct save as [[| |es]|], forward as [[| |ef]|]; done.
  - done.
Qed.

(** Once settled, the promise of the remote fetch keeps its outcome, and
    the fetch performs nothing more. *)
Lemma step_settled cfg ev s :
  st_stage s = Settled →
  st_stage (step cfg ev s).1 = Settled
  ∧ st_new (step cfg ev s).1 = st_new s
  ∧ st_session (step cfg ev s).1 = st_session s
  ∧ sftpOps (step cfg ev s).2 = [].
Proof.
  intros Hst. unfold step, seq.
  destruct (dispatch cfg ev s) as [s1 a1] eqn:Hd.
  destruct (chain_frame cfg s1) as (_ & Hn & Hs & Hse & Ha).
  destruct (handler_chain cfg s1) as [s2 a2]. cbn [fst snd] in *.
  rewrite Hn, Hs, Hse, sftpOps_app, Ha, app_nil_r.
  destruct s as [s3c old new stage session save forward logLines transport ph].
  cbn in Hst. subst stage.
  destruct ev as [[e|body]|[e|pw]|[e|]|[e|]|chunk| |e|[e|]|e|]; cbn in Hd.
  all: try (injection Hd as <- <-; done).
  - destruct old; injection Hd as <- <-; done.
  - destruct old; injection Hd as <- <-; done.
  - destruct save as [[| |es]|]; injection Hd as <- <-; done.
  - destruct save as [[| |es]|]; injection Hd as <- <-; done.
  - destruct transport; injection Hd as <- <-; done.
  - destruct transport; injection Hd as <- <-; cbn; by rewrite ?sftpOps_app, ?sftpOps_LoggerInfo.
Qed.

Lemma run_settled cfg es st :
  st_stage st.1 = Settled →
  st_stage (run cfg st es).1 = Settled
  ∧ st_new (run cfg st es).1 = st_new st.1
  ∧ st_session (run cfg st es).1 = st_session st.1
  ∧ sftpOps (run cfg st es).2 = sftpOps st.2.
Proof.
  revert st. induction es as [|ev es IH]; intros [s tr] Hst; [done|].
  cbn in Hst. cbn [run fst snd].
  destruct (step_settled cfg ev s Hst) as (H1 & H2 & H3 & H4).
  destruct (step cfg ev s) as [s' acts]. cbn [fst snd] in *.
  destruct (IH (s', tr ++ acts) H1) as (H5 & H6 & H7 & H8). cbn [fst snd] in *.
  rewrite H5, H6, H7, H8, H2, H3, sftpOps_app, H4, app_nil_r. done.
Qed.

(** A trace only grows. *)
Lemma run_trace cfg es st : ∃ acts, (run cfg st es).2 = st.2 ++ acts.
Proof.
  revert st. induction es as [|ev es IH]; intros [s tr].
  - exists []. by rewrite app_nil_r.
  - cbn [run fst snd]. destruct (step cfg ev s) as [s' acts].
    destruct (IH (s', tr ++ acts)) as [acts' ->]. cbn.
    exists (acts ++ acts'). by rewrite app_assoc.
Qed.

(** Once the callback has been called it is not called again. *)
Lemma run_reported cfg es st r :
  Inv cfg st.1 st.2 → callbacks st.2 = [r] → callbacks (run cfg st es).2 = [r].
Proof.
  intros HI Hc.
  pose proof (run_Inv cfg es st HI) as (_ & _ & Hmain).
  destruct (run_trace cfg es st) as [acts Hacts].
  assert (callbacks (run cfg st es).2 = r :: callbacks acts) as Heq.
  { by rewrite Hacts, callbacks_app, Hc. }
  assert (length (callbacks (run cfg st es).2) ≤ 1) as Hlen.
  { destruct (st_new (run cfg st es).1) as [|new|e].
    - destruct Hmain as (_ & _ & ->). cbn. lia.
    - destruct (st_old (run cfg st es).1) as [|old|e].
      + destruct Hmain as (_ & _ & ->). cbn. lia.
      + destruct Hmain as (_ & _ & _ & _ & _ & Hph).
        destruct (st_phase (run cfg st es).1); [done| |].
        * destruct Hph as [-> _]. cbn. lia.
        * destruct Hph as (r' & -> & _). cbn. lia.
      + destruct Hmain as (_ & _ & ->). cbn. lia.
    - destruct Hmain as (_ & _ & ->). cbn. lia. }
  rewrite Heq in *. destruct (callbacks acts); [done|]. cbn in Hlen. lia.
Qed.

(** ** The deciding stage *)

(** C2 as stated fails: with a stored snapshot that is the empty string
    the batch is empty and an old snapshot was obtained, yet the new
    snapshot is saved. *)
Lemma handler_decides_counterexample :
  let r := run cfg0 (handler false cfg0 false)
             (GetObjectCb (inr []) :: fetched (lit "x")) in
  st_old r.1 = Fulfilled (Some [])
  ∧ st_new r.1 = Fulfilled (lit "x")
  ∧ compareLogFiles (Some []) (lit "x") = []
  ∧ saves r.2 = [(lit "x", s3_bucket (s3 cfg0), s3_path (s3 cfg0))]
  ∧ ¬ (saves r.2 ≠ [] ↔ compareLogFiles (Some []) (lit "x") ≠ [] ∨ Some [] = @None jsstring).
Proof.
  cbv zeta. repeat split; try reflexivity.
  intros [H _]. destruct H as [H|H]; [by vm_compute|by apply H|discriminate H].
Qed.

(** C2, amended: once both fetches have delivered, a save has been issued
    exactly when the batch is non-empty or the old snapshot is absent or
    empty, a forward exactly when the batch is non-empty; what is saved is
    the new snapshot under the store's key, what is opened is the
    configured collector. *)
Theorem handler_decides isLambda cfg s3client es old new :
  let r := run cfg (handler isLambda cfg s3client) es in
  st_old r.1 = Fulfilled old → st_new r.1 = Fulfilled new →
  (saves r.2 ≠ [] ↔ compareLogFiles old new ≠ [] ∨ old = None ∨ old = Some [])
  ∧ (forwards r.2 ≠ [] ↔ compareLogFiles old new ≠ [])
  ∧ (∀ x, x ∈ saves r.2 → x = (new, s3_bucket (s3 cfg), s3_path (s3 cfg)))
  ∧ (∀ c, c ∈ forwards r.2 → c = papertrail cfg).
Proof.
  intros r Hold Hnew.
  destruct (reachable_Inv isLambda cfg s3client es) as (_ & _ & Hmain).
  fold r in Hmain.
  rewrite Hnew, Hold in Hmain.
  destruct Hmain as (_ & Hs & Hf & _). rewrite Hs, Hf.
  unfold savesWhen, forwardsWhen.
  destruct (compareLogFiles old new) as [|c batch], old as [[|c' o]|]; cbn.
  all: repeat split; try done; try (intros _; eauto; fail).
  all: try (intros [?|[?|?]]; done).
  all: try (intros x Hx; apply list_elem_of_singleton in Hx; done).
  all: try (intros x Hx; by apply elem_of_nil in Hx).
Qed.

(** Scenario A of the specification. *)
Lemma handler_decides_witness :
  let r := run cfg0 (handler false cfg0 false)
             (GetObjectCb (inr (text ["a"; "b"; "c"]%string))
                :: fetched (text ["a"; "b"; "c"; "d"]%string)) in
  (saves r.2 ≠ []
   ↔ compareLogFiles (Some (text ["a"; "b"; "c"]%string)) (text ["a"; "b"; "c"; "d"]%string) ≠ []
     ∨ Some (text ["a"; "b"; "c"]%string) = None
     ∨ Some (text ["a"; "b"; "c"]%string) = Some [])
  ∧ (forwards r.2 ≠ []
     ↔ compareLogFiles (Some (text ["a"; "b"; "c"]%string)) (text ["a"; "b"; "c"; "d"]%string) ≠ [])
  ∧ (∀ x, x ∈ saves r.2 →
          x = (text ["a"; "b"; "c"; "d"]%string, s3_bucket (s3 cfg0), s3_path (s3 cfg0)))
  ∧ (∀ c, c ∈ forwards r.2 → c = papertrail cfg0).
Proof.
  apply (handler_decides false cfg0 false
           (GetObjectCb (inr (text ["a"; "b"; "c"]%string))
              :: fetched (text ["a"; "b"; "c"; "d"]%string))
           (Some (text ["a"; "b"; "c"]%string)) (text ["a"; "b"; "c"; "d"]%string));
    reflexivity.
Defined.

Example scenario_A_trace :
  (run cfg0 (handler false cfg0 false)
     (GetObjectCb (inr (text ["a"; "b"; "c"]%string))
        :: fetched (text ["a"; "b"; "c"; "d"]%string)
        ++ [PutObjectCb None; PapertrailConnect])).2
  = [NewS3 (s3_region (s3 cfg0));
     S3GetObject (s3_bucket (s3 cfg0)) (s3_path (s3 cfg0));
     SftpConnect (sftp cfg0);
     SftpGet (sftp_path (sftp cfg0));
     SftpEnd;
     S3PutObject (text ["a"; "b"; "c"; "d"]%string) (s3_bucket (s3 cfg0)) (s3_path (s3 cfg0));
     PapertrailOpen (papertrail cfg0);
     LoggerInfo (lit "d");
     LoggerClose;
     Callback (inr [(); ()])].
Proof. reflexivity. Qed.

Example scenario_B_trace :
  (run cfg0 (handler false cfg0 false)
     (GetObjectCb (inl (err "NoSuchKey")) :: fetched (text ["x"; "y"]%string)
        ++ [PutObjectCb None])).2
  = [NewS3 (s3_region (s3 cfg0));
     S3GetObject (s3_bucket (s3 cfg0)) (s3_path (s3 cfg0));
     SftpConnect (sftp cfg0);
     ConsoleWarn (err "NoSuchKey");
     SftpGet (sftp_path (sftp cfg0));
     SftpEnd;
     S3PutObject (text ["x"; "y"]%string) (s3_bucket (s3 cfg0)) (s3_path (s3 cfg0));
     Callback (inr [()])].
Proof. reflexivity. Qed.

Example scenario_C_trace :
  (run cfg0 (handler false cfg0 false)
     (GetObjectCb (inr (text ["a"; "b"]%string)) :: fetched (text ["a"; "b"]%string))).2
  = [NewS3 (s3_region (s3 cfg0));
     S3GetObject (s3_bucket (s3 cfg0)) (s3_path (s3 cfg0));
     SftpConnect (sftp cfg0);
     SftpGet (sftp_path (sftp cfg0));
     SftpEnd;
     Callback (inr [])].
Proof. reflexivity. Qed.

(** ** Saving and forwarding *)

(** C3 as stated fails: when the save fails while the forward is still
    outstanding, the failure is reported at once; the forward has not
    settled then, and completes after the report. *)
Lemma send_failure_counterexample :
  let es := GetObjectCb (inr (lit "a")) :: fetched (text ["a"; "b"]%string)
              ++ [PutObjectCb (Some (err "put failed"))] in
  let r := run cfg0 (handler false cfg0 false) es in
  st_save r.1 = Some (Rejected (err "put failed"))
  ∧ st_forward r.1 = Some Pending
  ∧ callbacks r.2 = [inl (err "put failed")]
  ∧ (run cfg0 r [PapertrailConnect]).2
    = r.2 ++ [LoggerInfo (lit "b"); LoggerClose].
Proof. vm_compute. repeat split; reflexivity. Qed.

(** C3, amended: when both the save and the forward have been issued and
    nothing has been reported yet, the first of them to fail makes the run
    report that error in the same turn, whether or not the other has
    settled; the other operation is left as it is; and that report stays
    the only one whatever happens afterwards. *)
Theorem send_failure_reported isLambda cfg s3client es ps pf ev e :
  let r := run cfg (handler isLambda cfg s3client) es in
  st_phase r.1 = Sending → st_save r.1 = Some ps → st_forward r.1 = Some pf →
  (ev = PutObjectCb (Some e) ∧ ps = Pending) ∨ (ev = PapertrailError e ∧ pf = Pending) →
  callbacks r.2 = []
  ∧ (step cfg ev r.1).2 = [Callback (inl e)]
  ∧ st_phase (step cfg ev r.1).1 = Done
  ∧ (ev = PutObjectCb (Some e) → st_forward (step cfg ev r.1).1 = Some pf)
  ∧ (ev = PapertrailError e → st_save (step cfg ev r.1).1 = Some ps)
  ∧ ∀ es', callbacks (run cfg r (ev :: es')).2 = [inl e].
Proof.
  intros r Hph Hsave Hfwd Hev.
  pose proof (reachable_Inv isLambda cfg s3client es) as HI. fold r in HI.
  assert (callbacks r.2 = [] ∧ (step cfg ev r.1).2 = [Callback (inl e)]
          ∧ st_phase (step cfg ev r.1).1 = Done
          ∧ (ev = PutObjectCb (Some e) → st_forward (step cfg ev r.1).1 = Some pf)
          ∧ (ev = PapertrailError e → st_save (step cfg ev r.1).1 = Some ps))
    as (Hc & Hacts & Hdone & Hf & Hs).
  { destruct HI as (Hold & Hstage & Hmain).
    destruct r.1 as [s3c old new stage session save forward logLines transport ph].
    cbn in Hph, Hsave, Hfwd. subst ph save forward.
    unfold decided, quiet in Hmain.
    cbn [st_old st_new st_stage st_save st_forward st_phase st_transport st_logLines]
      in Hold, Hmain.
    destruct new as [|new0|en]; [by destruct Hmain| |by destruct Hmain].
    destruct old as [|old0|eo]; [by destruct Hmain| |by destruct (Hold eo)].
    destruct Hmain as (_ & _ & _ & _ & (_ & _ & Htr) & Hc & Hall).
    destruct Hev as [[-> ->]|[-> ->]].
    - destruct pf as [| |ef]; [| |done]; subst; (split; [done|]); cbn; done.
    - subst transport.
      destruct ps as [| |es0]; [| |done]; (split; [done|]); cbn; done. }
  repeat split; try done.
  intros es'. cbn [run]. destruct (step cfg ev r.1) as [s' acts] eqn:Hstep.
  cbn [fst snd] in *. subst acts.
  apply run_reported; cbn [fst snd].
  - by eapply step_Inv.
  - by rewrite callbacks_app, Hc.
Qed.

Lemma send_failure_reported_witness :
  let es := GetObjectCb (inr (lit "a")) :: fetched (text ["a"; "b"]%string) in
  let r := run cfg0 (handler false cfg0 false) es in
  let ev := PutObjectCb (Some (err "put failed")) in
  callbacks r.2 = []
  ∧ (step cfg0 ev r.1).2 = [Callback (inl (err "put failed"))]
  ∧ st_phase (step cfg0 ev r.1).1 = Done
  ∧ (ev = PutObjectCb (Some (err "put failed")) →
     st_forward (step cfg0 ev r.1).1 = Some Pending)
  ∧ (ev = PapertrailError (err "put failed") →
     st_save (step cfg0 ev r.1).1 = Some Pending)
  ∧ ∀ es', callbacks (run cfg0 r (ev :: es')).2 = [inl (err "put failed")].
Proof.
  apply (send_failure_reported false cfg0 false
           (GetObjectCb (inr (lit "a")) :: fetched (text ["a"; "b"]%string))
           Pending Pending (PutObjectCb (Some (err "put failed"))) (err "put failed")).
  - vm_compute; reflexivity.
  - vm_compute; reflexivity.
  - vm_compute; reflexivity.
  - left. split; reflexivity.
Defined.

(** ** Failures of the remote fetch *)

(** While the stream is being read and nothing has been reported, an event
    other than the stream's 'end' leaves the fetch pending, the session
    open and the callback uncalled. *)
Lemma step_reading cfg ev s tr :
  ev ≠ StreamEnd → reading s tr →
  reading (step cfg ev s).1 (tr ++ (step cfg ev s).2).
Proof.
  intros Hev ([chunks Hst] & Hn & Hph & Ho & Hse & Hc).
  destruct s as [s3c old new stage session save forward logLines transport ph].
  cbn in Hst, Hn, Hph, Ho, Hse. subst.
  unfold reading. rewrite callbacks_app, Hc.
  destruct ev as [[e|body]|[e|pw]|[e|]|[e|]|chunk| |e|[e|]|e|]; try done;
    destruct old as [|old0|eo]; try (by destruct (Ho eo));
    try destruct save as [[| |es]|]; try destruct transport;
    cbn; rewrite ?callbacks_app, ?callbacks_LoggerInfo; repeat split; eauto.
Qed.

Lemma run_reading cfg es st :
  StreamEnd ∉ es → reading st.1 st.2 → reading (run cfg st es).1 (run cfg st es).2.
Proof.
  revert st. induction es as [|ev es IH]; intros [s tr] Hes HR; [done|].
  cbn [run fst snd]. apply not_elem_of_cons in Hes as [Hev Hes].
  pose proof (step_reading cfg ev s tr (not_eq_sym Hev) HR) as HR'.
  destruct (step cfg ev s) as [s' acts]. by apply IH.
Qed.

(** C5 fails on the code when the fetch fails in the transfer: once
    [client.get] has delivered the stream, a failure of the stream reaches
    no code of the module, which listens to 'data' and 'end' only.  The
    promise of the fetch stays pending, nothing is reported and the
    session stays open, also after anything that may still happen short of
    the stream ending; nothing is saved or forwarded. *)
Theorem transfer_failure_unreported cfg s3client stored chunks e es :
  let r := run cfg (handler false cfg s3client)
             (GetObjectCb stored :: ConnectSettled None :: GetSettled None
                :: map StreamData chunks ++ [StreamError e]) in
  (st_new r.1 = Pending ∧ callbacks r.2 = [] ∧ st_session r.1 = true)
  ∧ (StreamEnd ∉ es →
     st_new (run cfg r es).1 = Pending ∧ callbacks (run cfg r es).2 = []
     ∧ st_session (run cfg r es).1 = true
     ∧ saves (run cfg r es).2 = [] ∧ forwards (run cfg r es).2 = []
     ∧ infos (run cfg r es).2 = []).
Proof.
  intros r.
  assert (reading r.1 r.2) as HR.
  { unfold r.
    change (GetObjectCb stored :: ConnectSettled None :: GetSettled None
              :: map StreamData chunks ++ [StreamError e])
      with ([GetObjectCb stored; ConnectSettled None; GetSettled None]
              ++ map StreamData chunks ++ [StreamError e]).
    rewrite run_app. apply run_reading.
    - intros Hin. apply elem_of_app in Hin as [Hin|Hin].
      + apply list_elem_of_fmap in Hin as (c & Hc & _). discriminate Hc.
      + apply list_elem_of_singleton in Hin. discriminate Hin.
    - destruct cfg as [[h p u pw pa] c3 cp], s3client, stored as [e0|body];
        cbn; repeat split; eauto. }
  split.
  - by destruct HR as (_ & ? & _ & _ & ? & ?).
  - intros Hes.
    destruct (run_reading cfg es r Hes HR) as (_ & Hn & _ & _ & Hse & Hc).
    repeat split; try done.
    all: pose proof (run_Inv cfg es r (reachable_Inv false cfg s3client _)) as (_ & _ & Hmain);
      rewrite Hn in Hmain; by destruct Hmain as (_ & (_ & _ & _ & ? & ? & ?) & _).
Qed.

Lemma transfer_failure_unreported_witness :
  let r := run cfg0 (handler false cfg0 false)
             (GetObjectCb (inr (lit "ab")) :: ConnectSettled None :: GetSettled None
                :: map StreamData [lit "a"; lit "b"] ++ [StreamError (err "ECONNRESET")]) in
  let es := [StreamData (lit "c"); StreamError (err "ECONNRESET"); PapertrailConnect] in
  st_new (run cfg0 r es).1 = Pending ∧ callbacks (run cfg0 r es).2 = []
  ∧ st_session (run cfg0 r es).1 = true
  ∧ saves (run cfg0 r es).2 = [] ∧ forwards (run cfg0 r es).2 = []
  ∧ infos (run cfg0 r es).2 = [].
Proof.
  apply (transfer_failure_unreported cfg0 false (inr (lit "ab")) [lit "a"; lit "b"]
           (err "ECONNRESET")
           [StreamData (lit "c"); StreamError (err "ECONNRESET"); PapertrailConnect]).
  intros Hin. repeat (apply elem_of_cons in Hin as [Hin|Hin]; [discriminate Hin|]).
  by apply elem_of_nil in Hin.
Defined.

(** Had the stream ended instead, the run would have gone on. *)
Example transfer_completed :
  callbacks (run cfg0 (handler false cfg0 false)
               (GetObjectCb (inr (lit "ab")) :: ConnectSettled None :: GetSettled None
                  :: map StreamData [lit "a"; lit "b"] ++ [StreamEnd])).2
  = [inr []].
Proof. vm_compute. reflexivity. Qed.

(** Once the promise of the remote fetch is rejected, the run has reported
    that error and nothing else, no save and no forward has been issued
    and no line has been sent; at no point of the run did the chain have
    the new contents that the diff needs. *)
Lemma rejected_fetch isLambda cfg s3client es e :
  let r := run cfg (handler isLambda cfg s3client) es in
  st_new r.1 = Rejected e →
  callbacks r.2 = [inl e]
  ∧ saves r.2 = [] ∧ forwards r.2 = [] ∧ infos r.2 = []
  ∧ st_save r.1 = None ∧ st_forward r.1 = None
  ∧ ∀ es1 es2 new, es = es1 ++ es2 →
      st_new (run cfg (handler isLambda cfg s3client) es1).1 ≠ Fulfilled new.
Proof.
  intros r Hnew.
  destruct (reachable_Inv isLambda cfg s3client es) as (_ & _ & Hmain).
  fold r in Hmain. rewrite Hnew in Hmain.
  destruct Hmain as (_ & (Hsave & Hfwd & _ & Hs & Hf & Hi) & Hc).
  repeat split; try done.
  intros es1 es2 new -> Hful.
  destruct (reachable_Inv isLambda cfg s3client es1) as (_ & Hstage & _).
  unfold r in Hnew. rewrite run_app in Hnew.
  destruct (st_stage (run cfg (handler isLambda cfg s3client) es1).1) eqn:Hst;
    try (rewrite Hful in Hstage;
         solve [discriminate Hstage | destruct Hstage; discriminate]).
  destruct (run_settled cfg es2 _ Hst) as (_ & Hsame & _).
  congruence.
Qed.

(** A failure the chain catches rejects the promise of the fetch and is
    reported in the same turn, in every state an invocation reaches. *)
Lemma step_fetchFailure cfg s tr ev e :
  Inv cfg s tr → fetchFailure (st_stage s) ev e →
  st_stage (step cfg ev s).1 = Settled
  ∧ st_new (step cfg ev s).1 = Rejected e
  ∧ (step cfg ev s).2 = [Callback (inl e)].
Proof.
  intros (Hold & Hstage & Hmain) Hfail.
  destruct s as [s3c old new stage session save forward logLines transport ph].
  unfold quiet in Hmain.
  cbn [st_old st_new st_stage st_save st_forward st_phase st_transport st_logLines]
    in Hold, Hstage, Hmain, Hfail.
  destruct Hfail as [[-> ->]|[[-> ->]|[-> ->]]].
  1: destruct Hstage as [-> _].
  2,3: cbn in Hstage; subst new.
  all: destruct Hmain as (-> & _);
    (destruct old as [|old0|eo]; [| |by destruct (Hold eo)]); done.
Qed.

(** ** Failures of the store read *)

(** C6: the promise of the store fetch is never rejected; a read error
    resolves it with [undefined] after a warning and reports no failure;
    and whenever the store read failed and the remote fetch succeeded, the
    current log has been sent to the store, and nothing to the collector. *)
Theorem store_read_error isLambda cfg s3client es :
  let r := run cfg (handler isLambda cfg s3client) es in
  (∀ e, st_old r.1 ≠ Rejected e)
  ∧ (∀ e, st_old r.1 = Pending →
       st_old (step cfg (GetObjectCb (inl e)) r.1).1 = Fulfilled None
       ∧ ∃ acts, (step cfg (GetObjectCb (inl e)) r.1).2 = ConsoleWarn e :: acts
                 ∧ callbacks acts = [])
  ∧ (∀ new, st_old r.1 = Fulfilled None → st_new r.1 = Fulfilled new →
       saves r.2 = [(new, s3_bucket (s3 cfg), s3_path (s3 cfg))] ∧ forwards r.2 = []).
Proof.
  intros r.
  destruct (reachable_Inv isLambda cfg s3client es) as (Hold & Hstage & Hmain).
  fold r in Hold, Hstage, Hmain.
  split; [done|split].
  - intros e Hpending.
    destruct (step cfg (GetObjectCb (inl e)) r.1) as [s' acts] eqn:Hstep.
    destruct r.1 as [s3c old new stage session save forward logLines transport ph].
    unfold quiet in Hmain.
    cbn [st_old st_new st_stage st_save st_forward st_phase st_transport st_logLines]
      in Hpending, Hmain, Hstage.
    subst old.
    destruct new as [|new0|en];
      destruct Hmain as (-> & (-> & -> & -> & _) & _).
    + eval_step Hstep. cbn. eauto.
    + assert (compareLogFiles None new0 = []) as Hb by reflexivity.
      destruct s3c; eval_step Hstep; cbn; eauto.
    + eval_step Hstep. cbn. eauto.
  - intros new Hnone Hnew. rewrite Hnew, Hnone in Hmain.
    destruct Hmain as (_ & Hs & Hf & _). by rewrite Hs, Hf.
Qed.

(** Scenario E of the specification: first the read error, then the run
    after the remote fetch has succeeded as well. *)
Lemma store_read_error_witness :
  (st_old (step cfg0 (GetObjectCb (inl (err "AccessDenied")))
             (handler false cfg0 false).1).1 = Fulfilled None
   ∧ ∃ acts, (step cfg0 (GetObjectCb (inl (err "AccessDenied")))
                (handler false cfg0 false).1).2 = ConsoleWarn (err "AccessDenied") :: acts
             ∧ callbacks acts = [])
  ∧ (saves (run cfg0 (handler false cfg0 false)
              (GetObjectCb (inl (err "AccessDenied")) :: fetched (lit "x"))).2
       = [(lit "x", s3_bucket (s3 cfg0), s3_path (s3 cfg0))]
     ∧ forwards (run cfg0 (handler false cfg0 false)
                   (GetObjectCb (inl (err "AccessDenied")) :: fetched (lit "x"))).2 = []).
Proof.
  split.
  - apply (store_read_error false cfg0 false []). vm_compute; reflexivity.
  - apply (store_read_error false cfg0 false
             (GetObjectCb (inl (err "AccessDenied")) :: fetched (lit "x"))).
    + vm_compute; reflexivity.
    + vm_compute; reflexivity.
Defined.

(** ** Failure of the decryption *)

(** C8 as stated fails: the store fetch is issued by the handler before the
    decryption is, so it has been issued in a run whose decryption fails. *)
Lemma decrypt_failure_counterexample :
  let r := run cfg0 (handler true cfg0 false)
             [DecryptCb (inl (err "AccessDeniedException"))] in
  callbacks r.2 = [inl (err "AccessDeniedException")]
  ∧ storeReads r.2 = [(s3_bucket (s3 cfg0), s3_path (s3 cfg0))]
  ∧ r.2 = [NewS3 (s3_region (s3 cfg0));
           S3GetObject (s3_bucket (s3 cfg0)) (s3_path (s3 cfg0));
           KmsDecrypt (Buffer_from (sftp_password (sftp cfg0)) "base64");
           Callback (inl (err "AccessDeniedException"))].
Proof. vm_compute. repeat split; reflexivity. Qed.

(** C8, amended: when the decryption fails, the run reports that error and
    nothing else; no SFTP operation, no save and no forward is ever issued
    and no line is sent; the read of the stored snapshot, however, was
    issued when the handler started, before the decryption. *)
Theorem decrypt_failure isLambda cfg s3client pre e post :
  st_stage (run cfg (handler isLambda cfg s3client) pre).1 = Decrypting →
  let r := run cfg (handler isLambda cfg s3client) (pre ++ DecryptCb (inl e) :: post) in
  callbacks r.2 = [inl e]
  ∧ sftpOps r.2 = [] ∧ saves r.2 = [] ∧ forwards r.2 = [] ∧ infos r.2 = []
  ∧ storeReads (handler isLambda cfg s3client).2 = [(s3_bucket (s3 cfg), s3_path (s3 cfg))]
  ∧ (s3_bucket (s3 cfg), s3_path (s3 cfg)) ∈ storeReads r.2.
Proof.
  intros Hst r.
  pose proof (reachable_Inv isLambda cfg s3client pre) as HI.
  pose proof (reachable_Inv isLambda cfg s3client (pre ++ DecryptCb (inl e) :: post))
    as (_ & _ & Hmain).
  fold r in Hmain.
  assert (storeReads (handler isLambda cfg s3client).2
          = [(s3_bucket (s3 cfg), s3_path (s3 cfg))]) as Hreads.
  { by destruct isLambda, s3client. }
  assert (st_new r.1 = Rejected e ∧ sftpOps r.2 = []) as [Hnew Hsftp].
  { unfold r. rewrite run_app. cbn [run].
    destruct (run cfg (handler isLambda cfg s3client) pre) as [s tr].
    cbn [fst snd] in *.
    destruct (step cfg (DecryptCb (inl e)) s) as [s' acts] eqn:Hstep.
    assert (st_stage s' = Settled ∧ st_new s' = Rejected e ∧ sftpOps (tr ++ acts) = [])
      as (Hst' & Hnew' & Hsftp').
    { destruct HI as (Hold & Hstage & HImain).
      destruct s as [s3c old new stage session save forward logLines transport ph].
      unfold quiet in HImain.
      cbn [st_old st_new st_stage st_save st_forward st_phase st_transport st_logLines]
        in Hst, Hold, Hstage, HImain.
      subst stage. destruct Hstage as [-> Hops].
      destruct HImain as (-> & _).
      destruct old as [|old0|eo]; [| |by destruct (Hold eo)];
        eval_step Hstep; by rewrite sftpOps_app, Hops. }
    destruct (run_settled cfg post (s', tr ++ acts) Hst') as (_ & H2 & _ & H4).
    cbn [fst snd] in *. by rewrite H2, H4. }
  rewrite Hnew in Hmain.
  destruct Hmain as (_ & (_ & _ & _ & Hs & Hf & Hi) & Hc).
  repeat split; try done.
  destruct (run_trace cfg (pre ++ DecryptCb (inl e) :: post) (handler isLambda cfg s3client))
    as [acts Hacts].
  fold r in Hacts. rewrite Hacts, storeReads_app, Hreads.
  apply elem_of_app. left. apply list_elem_of_singleton. done.
Qed.

Lemma decrypt_failure_witness :
  let r := run cfg0 (handler true cfg0 false)
             ([GetObjectCb (inr (lit "a"))]
                ++ DecryptCb (inl (err "AccessDeniedException")) :: []) in
  callbacks r.2 = [inl (err "AccessDeniedException")]
  ∧ sftpOps r.2 = [] ∧ saves r.2 = [] ∧ forwards r.2 = [] ∧ infos r.2 = []
  ∧ storeReads (handler true cfg0 false).2 = [(s3_bucket (s3 cfg0), s3_path (s3 cfg0))]
  ∧ (s3_bucket (s3 cfg0), s3_path (s3 cfg0)) ∈ storeReads r.2.
Proof.
  apply (decrypt_failure true cfg0 false [GetObjectCb (inr (lit "a"))]
           (err "AccessDeniedException") []).
  vm_compute; reflexivity.
Defined.

(** ** The SFTP session *)

(** C9 fails on the code: when [client.get] rejects after the connection
    was established, the promise is rejected and the run reports the
    error, but [client.end] is never called; the session stays open
    whatever happens afterwards. *)
Theorem getLogFileLatest_leaves_session_open cfg s3client e es :
  let r := run cfg (handler false cfg s3client) [ConnectSettled None; GetSettled (Some e)] in
  st_new r.1 = Rejected e
  ∧ callbacks r.2 = [inl e]
  ∧ st_session (run cfg r es).1 = true
  ∧ sftpOps (run cfg r es).2 = [SftpConnect (sftp cfg); SftpGet (sftp_path (sftp cfg))].
Proof.
  intros r.
  assert (st_stage r.1 = Settled ∧ st_new r.1 = Rejected e ∧ callbacks r.2 = [inl e]
          ∧ st_session r.1 = true
          ∧ sftpOps r.2 = [SftpConnect (sftp cfg); SftpGet (sftp_path (sftp cfg))])
    as (Hst & Hnew & Hc & Hse & Hops).
  { unfold r. destruct cfg as [[h p u pw pa] c3 cp], s3client; done. }
  destruct (run_settled cfg es r Hst) as (_ & _ & H3 & H4).
  by rewrite H3, H4.
Qed.

(** The path on which the read completes does end the session. *)
Lemma getLogFileLatest_ends_session cfg s3client chunk :
  let r := run cfg (handler false cfg s3client)
             [ConnectSettled None; GetSettled None; StreamData chunk; StreamEnd] in
  st_new r.1 = Fulfilled (trim chunk)
  ∧ st_session r.1 = false
  ∧ sftpOps r.2 = [SftpConnect (sftp cfg); SftpGet (sftp_path (sftp cfg)); SftpEnd].
Proof. destruct cfg as [[h p u pw pa] c3 cp], s3client; done. Qed.

(** * Further properties of the code *)

(** ** [trim], [split] and [join] *)

Lemma trimStart_head s :
  trimStart s = [] ∨ ∃ c t, trimStart s = c :: t ∧ isWhiteSpace c = false.
Proof.
  induction s as [|c s IH]; [by left|].
  cbn [trimStart]. destruct (isWhiteSpace c) eqn:Hc; [done|]. right. eauto.
Qed.

Lemma trimStart_nil s : trimStart s = [] ↔ Forall (λ c, isWhiteSpace c = true) s.
Proof.
  induction s as [|c s IH]; [done|].
  cbn [trimStart]. destruct (isWhiteSpace c) eqn:Hc.
  - rewrite IH. split; [by constructor|]. by inversion 1.
  - split; [done|]. inversion 1; congruence.
Qed.

Lemma trimStart_snoc s c :
  isWhiteSpace c = false → trimStart (s ++ [c]) = trimStart s ++ [c].
Proof.
  intros Hc. induction s as [|d s IH]; cbn [trimStart app].
  - by rewrite Hc.
  - by destruct (isWhiteSpace d).
Qed.

Lemma trimStart_idemp s : trimStart (trimStart s) = trimStart s.
Proof.
  destruct (trimStart_head s) as [->|(c & t & -> & Hc)]; [done|].
  cbn [trimStart]. by rewrite Hc.
Qed.

Lemma trimEnd_cons c s :
  isWhiteSpace c = false → trimEnd (c :: s) = c :: trimEnd s.
Proof.
  intros Hc. unfold trimEnd. cbn [rev].
  by rewrite trimStart_snoc, rev_app_distr.
Qed.

Lemma trimEnd_nil s : trimEnd s = [] ↔ Forall (λ c, isWhiteSpace c = true) s.
Proof.
  unfold trimEnd. split.
  - intros H. apply (f_equal (@rev N)) in H. rewrite rev_involutive in H.
    cbn [rev] in H. apply trimStart_nil, Forall_rev in H.
    by rewrite rev_involutive in H.
  - intros H. apply Forall_rev, trimStart_nil in H. by rewrite H.
Qed.

(** [trim] gives the empty string exactly on strings of white space. *)
Lemma trim_nil s : trim s = [] ↔ Forall (λ c, isWhiteSpace c = true) s.
Proof.
  unfold trim. rewrite trimEnd_nil, <- (trimStart_nil s).
  destruct (trimStart_head s) as [H|(c & t & H & Hc)]; rewrite H.
  - split; [done|]. by constructor.
  - split; [|done]. inversion 1; congruence.
Qed.

(** What [trim] returns is empty or starts with a code unit that is not
    white space. *)
Lemma trim_head s : trim s = [] ∨ ∃ c t, trim s = c :: t ∧ isWhiteSpace c = false.
Proof.
  unfold trim. destruct (trimStart_head s) as [->|(c & t & -> & Hc)]; [by left|].
  right. rewrite trimEnd_cons by done. eauto.
Qed.

Lemma trimEnd_idemp s : trimEnd (trimEnd s) = trimEnd s.
Proof. unfold trimEnd. by rewrite rev_involutive, trimStart_idemp. Qed.

Lemma trim_idemp s : trim (trim s) = trim s.
Proof.
  destruct (trim_head s) as [->|(c & t & Heq & Hc)]; [done|].
  unfold trim at 1. rewrite Heq. cbn [trimStart]. rewrite Hc, <- Heq.
  unfold trim. apply trimEnd_idemp.
Qed.

(** What [trim] returns does not end with white space either. *)
Lemma trim_last s t c : trim s = t ++ [c] → isWhiteSpace c = false.
Proof.
  unfold trim, trimEnd. intros H.
  apply (f_equal (@rev N)) in H. rewrite rev_involutive, rev_app_distr in H.
  cbn in H.
  destruct (trimStart_head (rev (trimStart s))) as [H0|(c' & t' & H1 & Hc)]; congruence.
Qed.

Lemma split_cons sep c s :
  split sep (c :: s)
  = if (c =? sep)%N then [] :: split sep s
    else match split sep s with
         | piece :: pieces => (c :: piece) :: pieces
         | [] => [[c]]
         end.
Proof. reflexivity. Qed.

Lemma split_app sep a b : split sep (a ++ sep :: b) = split sep a ++ split sep b.
Proof.
  induction a as [|c a IH]; cbn [app].
  - by rewrite split_cons, N.eqb_refl.
  - rewrite !split_cons, IH. destruct (c =? sep)%N; [done|].
    pose proof (split_nonempty sep a). by destruct (split sep a).
Qed.

Lemma join_whitespace ls :
  Forall (λ c, isWhiteSpace c = true) (join [LF] ls)
  ↔ Forall (Forall (λ c, isWhiteSpace c = true)) ls.
Proof.
  induction ls as [|l ls IH]; [done|].
  destruct ls as [|l' ls].
  - cbn [join]. split; [by repeat constructor|by inversion 1].
  - change (join [LF] (l :: l' :: ls)) with (l ++ [LF] ++ join [LF] (l' :: ls)).
    rewrite !Forall_app, IH. split.
    + intros (? & ? & ?). by constructor.
    + inversion 1; subst. repeat split; try done. by repeat constructor.
Qed.

(** ** More on the diff computation *)

Lemma compareLogFiles_filter (old new : jsstring) :
  old ≠ [] →
  compareLogFiles (Some old) new
  = trim (join [LF] (filter (λ line, line ∉ split LF old) (split LF new))).
Proof.
  intros Hne. unfold compareLogFiles. destruct old as [|c old]; [done|].
  cbn [truthy negb]. rewrite !filter_const_true.
  by rewrite (List_filter_decide _ (λ line, line ∉ split LF (c :: old)))
    by (intros x; apply indexOf_negative).
Qed.

Lemma filter_none {A} (P : A → Prop) `{!∀ x, Decision (P x)} (l : list A) :
  (∀ x, x ∈ l → ¬ P x) → filter P l = [].
Proof.
  intros Hnone. destruct (filter P l) as [|x r] eqn:Hf; [done|].
  assert (x ∈ filter P l) as Hin by (rewrite Hf; left).
  apply list_elem_of_filter in Hin as [HP Hin]. by destruct (Hnone x Hin).
Qed.

Lemma compareLogFiles_falsy (new : jsstring) : compareLogFiles (Some []) new = [].
Proof. reflexivity. Qed.

Lemma compareLogFiles_subset (old new : jsstring) :
  (∀ line, line ∈ split LF new → line ∈ split LF old) →
  compareLogFiles (Some old) new = [].
Proof.
  intros Hsub. destruct old as [|c old]; [done|].
  rewrite compareLogFiles_filter by done.
  assert (filter (λ line, line ∉ split LF (c :: old)) (split LF new) = []) as ->; [|done].
  apply filter_none. intros line Hin Hnot. by apply Hnot, Hsub.
Qed.

(** X1: the diff is additive only: when every line of the new snapshot is
    already a line of the old one (nothing changed, or lines were removed or
    reordered), the result is empty. *)
Theorem compareLogFiles_no_new_lines (old new : jsstring) :
  (∀ line, line ∈ split LF new → line ∈ split LF old) →
  compareLogFiles (Some old) new = [].
Proof. apply compareLogFiles_subset. Qed.

Lemma compareLogFiles_no_new_lines_witness :
  compareLogFiles (Some (text ["a"; "b"; "c"]%string)) (text ["c"; "a"]%string) = [].
Proof.
  apply compareLogFiles_no_new_lines.
  apply (proj1 (Forall_forall (λ line, line ∈ split LF (text ["a"; "b"; "c"]%string))
                  (split LF (text ["c"; "a"]%string)))).
  vm_compute. repeat constructor.
Defined.

(** X2: comparing a snapshot with itself gives the empty result. *)
Theorem compareLogFiles_unchanged (contents : jsstring) :
  compareLogFiles (Some contents) contents = [].
Proof.
  destruct contents as [|c s]; [done|].
  rewrite compareLogFiles_filter by done.
  assert (filter (λ line, line ∉ split LF (c :: s)) (split LF (c :: s)) = []) as ->; [|done].
  apply filter_none. intros line Hin Hnot. by apply Hnot.
Qed.

(** X3: when the new snapshot is the old one followed by a newline and
    further text, the result is the diff of that further text alone. *)
Theorem compareLogFiles_appended (old extra : jsstring) :
  compareLogFiles (Some old) (old ++ LF :: extra) = compareLogFiles (Some old) extra.
Proof.
  destruct old as [|c old]; [done|].
  rewrite !compareLogFiles_filter by done.
  rewrite split_app, filter_app.
  assert (filter (λ line, line ∉ split LF (c :: old)) (split LF (c :: old)) = []) as ->; [|done].
  apply filter_none. intros line Hin Hnot. by apply Hnot.
Qed.

(** X4: the result never has white space at either end: trimming it again
    changes nothing, and neither its first nor its last code unit is white
    space. *)
Theorem compareLogFiles_trimmed (old : option jsstring) (new : jsstring) :
  trim (compareLogFiles old new) = compareLogFiles old new
  ∧ (∀ c t, compareLogFiles old new = c :: t → isWhiteSpace c = false)
  ∧ (∀ t c, compareLogFiles old new = t ++ [c] → isWhiteSpace c = false).
Proof.
  assert (∃ s, compareLogFiles old new = trim s) as [s Hs].
  { destruct old as [[|c old]|]; [by exists []| |by exists []].
    rewrite compareLogFiles_filter by done. eauto. }
  rewrite Hs. split; [apply trim_idemp|split].
  - intros c t Heq. destruct (trim_head s) as [H|(c' & t' & H & Hc)]; congruence.
  - intros t c Heq. by eapply trim_last.
Qed.

Lemma compareLogFiles_trimmed_witness :
  compareLogFiles (Some (lit "a")) (text [" "; "  b "; ""]%string) = lit "b"
  ∧ isWhiteSpace 98 = false.
Proof.
  split; [reflexivity|].
  destruct (compareLogFiles_trimmed (Some (lit "a")) (text [" "; "  b "; ""]%string))
    as (_ & Hhead & _).
  apply (Hhead 98%N []). reflexivity.
Defined.

(** X5: for a non-empty old snapshot the result is empty exactly when every
    line of the new snapshot is a line of the old one or consists of white
    space only; so a new line of white space alone is never reported. *)
Theorem compareLogFiles_empty_iff (old new : jsstring) :
  old ≠ [] →
  (compareLogFiles (Some old) new = []
   ↔ ∀ line, line ∈ split LF new →
             line ∈ split LF old ∨ Forall (λ c, isWhiteSpace c = true) line).
Proof.
  intros Hne. rewrite compareLogFiles_filter by done.
  rewrite trim_nil, join_whitespace, Forall_forall. split.
  - intros H line Hin.
    destruct (decide (line ∈ split LF old)) as [?|Hnot]; [by left|right].
    apply H. by apply list_elem_of_filter.
  - intros H line Hin. apply list_elem_of_filter in Hin as [Hnot Hin].
    by destruct (H line Hin).
Qed.

Lemma compareLogFiles_empty_iff_witness :
  compareLogFiles (Some (lit "a")) (text ["a"; "  "; ""]%string) = []
  ↔ ∀ line, line ∈ split LF (text ["a"; "  "; ""]%string) →
            line ∈ split LF (lit "a") ∨ Forall (λ c, isWhiteSpace c = true) line.
Proof.
  apply (compareLogFiles_empty_iff (lit "a") (text ["a"; "  "; ""]%string)).
  vm_compute. discriminate.
Defined.

(** ** The configuration *)

(** A name that is no property of [Object.prototype]. *)
Ltac own :=
  match goal with
  | |- ?n ∉ ObjectPrototype =>
      apply (bool_decide_eq_false_1 (n ∈ ObjectPrototype)); vm_compute; reflexivity
  end.

(** The names [getConfig] reads are not inherited by [process.env]. *)
Lemma requiredVars_own name : name ∈ requiredVars → name ∉ ObjectPrototype.
Proof.
  apply (proj1 (Forall_forall (λ n, n ∉ ObjectPrototype) requiredVars)).
  repeat constructor; own.
Qed.

Lemma getEnvString_set env name d v :
  env !! name = Some v → v ≠ [] → getEnvString env name d = inr v.
Proof.
  intros Hl Hv. unfold getEnvString, getEnv, process_env. rewrite Hl.
  destruct v; [done|]. reflexivity.
Qed.

Lemma getEnvString_unset env name d :
  name ∉ ObjectPrototype →
  truthy (ofOption (env !! name)) = false →
  getEnvString env name d
  = match d with
    | Some (c :: v) => inr (c :: v)
    | _ => inl (Error (lit "Please set " ++ name ++ lit "."))
    end.
Proof.
  intros Hown Hl. unfold getEnvString, getEnv. rewrite (process_env_own _ _ Hown).
  destruct (env !! name) as [[|c v]|]; try discriminate Hl;
    destruct d as [[|c' v']|]; reflexivity.
Qed.

(** For a name that is no property of [Object.prototype], [getEnvString]
    never takes its last branch: it returns a non-empty string that is the
    value of the variable or the default, or throws the error naming the
    variable. *)
Lemma getEnvString_inv env name d :
  name ∉ ObjectPrototype →
  match getEnvString env name d with
  | inr v => v ≠ [] ∧ (env !! name = Some v
                       ∨ (truthy (ofOption (env !! name)) = false ∧ d = Some v))
  | inl e => e = Error (lit "Please set " ++ name ++ lit ".")
             ∧ truthy (ofOption (env !! name)) = false
             ∧ truthy (ofOption d) = false
  end.
Proof.
  intros Hown. unfold getEnvString, getEnv. rewrite (process_env_own _ _ Hown).
  destruct (env !! name) as [[|c v]|]; destruct d as [[|c' v']|];
    cbn [truthy ofOption]; auto.
Qed.

Lemma isSet_truthy env name : isSet env name ↔ truthy (ofOption (env !! name)) = true.
Proof.
  unfold isSet. destruct (env !! name) as [[|c v]|]; cbn [truthy ofOption].
  - split; [|done]. by intros (v & [= <-] & Hv).
  - split; [done|]. intros _. by exists (c :: v).
  - split; [|done]. by intros (v & ? & _).
Qed.

Ltac read_set H :=
  let v := fresh "v" in let Hl := fresh "Hl" in let Hv := fresh "Hv" in
  destruct H as (v & Hl & Hv);
  rewrite ?(getEnvString_set _ _ _ _ Hl Hv); cbn [bindE].

(** X6: if a required variable is unset or empty while those read before
    it are set, [getConfig] throws the error that names this variable, and
    the handler performs no operation at all. *)
Theorem getConfig_missing parseName loadEnv env s3client before name after :
  requiredVars = before ++ name :: after →
  (∀ n, n ∈ before → isSet env n) →
  ¬ isSet env name →
  getConfig parseName env = inl (Error (lit "Please set " ++ name ++ lit "."))
  ∧ exports_handler parseName loadEnv env s3client
    = inl (Error (lit "Please set " ++ name ++ lit ".")).
Proof.
  intros Hreq Hbefore Hmiss.
  assert (getConfig parseName env = inl (Error (lit "Please set " ++ name ++ lit ".")))
    as Hcfg; [|by unfold exports_handler; rewrite Hcfg].
  rewrite isSet_truthy in Hmiss. apply not_true_is_false in Hmiss.
  assert (name ∉ ObjectPrototype) as Hown.
  { apply requiredVars_own. rewrite Hreq. apply elem_of_app. right. left. }
  pose proof (getEnvString_unset env name None Hown Hmiss) as Hthrow.
  assert (∃ r, getEnv env (lit "STP_SFTP_PORT") DEFAULT_SFTP_PORT = inr r) as [port Hport].
  { unfold getEnv. rewrite (process_env_own env (lit "STP_SFTP_PORT")) by own.
    destruct (env !! lit "STP_SFTP_PORT") as [[|c v]|]; eauto. }
  assert (∃ r, getEnvString env (lit "STP_S3_REGION") (Some DEFAULT_AWS_REGION) = inr r)
    as [region Hregion].
  { unfold getEnvString, getEnv.
    rewrite (process_env_own env (lit "STP_S3_REGION")) by own.
    destruct (env !! lit "STP_S3_REGION") as [[|c v]|]; eauto. }
  clear Hown.
  unfold getConfig. rewrite Hport, Hregion. clear Hport Hregion.
  unfold requiredVars in Hreq.
  cbn [bindE].
  generalize dependent (lit "STP_SFTP_HOST"). intros HOST.
  generalize dependent (lit "STP_SFTP_USERNAME"). intros USERNAME.
  generalize dependent (lit "STP_SFTP_PASSWORD"). intros PASSWORD.
  generalize dependent (lit "STP_SFTP_PATH"). intros PATH.
  generalize dependent (lit "STP_S3_BUCKET"). intros BUCKET.
  generalize dependent (lit "STP_PAPERTRAIL_HOST"). intros PTHOST.
  generalize dependent (lit "STP_PAPERTRAIL_PORT"). intros PTPORT Hreq.
  repeat (destruct before as [|n before]; cbn [app] in Hreq;
          [ injection Hreq as <- _; by rewrite Hthrow
          | let H := fresh "Hset" in
            assert (isSet env n) as H by (apply Hbefore; repeat constructor);
            injection Hreq as <- Hreq;
            read_set H ]).
  by destruct before.
Qed.

Lemma getConfig_missing_witness :
  getConfig (λ p, p) (delete (lit "STP_SFTP_PATH") env0)
    = inl (Error (lit "Please set STP_SFTP_PATH."))
  ∧ exports_handler (λ p, p) ∅ (delete (lit "STP_SFTP_PATH") env0) false
    = inl (Error (lit "Please set STP_SFTP_PATH.")).
Proof.
  apply (getConfig_missing (λ p, p) ∅ (delete (lit "STP_SFTP_PATH") env0) false
           [lit "STP_SFTP_HOST"; lit "STP_SFTP_USERNAME"; lit "STP_SFTP_PASSWORD"]
           (lit "STP_SFTP_PATH")
           [lit "STP_S3_BUCKET"; lit "STP_PAPERTRAIL_HOST"; lit "STP_PAPERTRAIL_PORT"]).
  - reflexivity.
  - intros n Hn. apply isSet_truthy.
    apply (proj1 (Forall_forall
                    (λ n, truthy (ofOption (delete (lit "STP_SFTP_PATH") env0 !! n)) = true)
                    [lit "STP_SFTP_HOST"; lit "STP_SFTP_USERNAME"; lit "STP_SFTP_PASSWORD"]));
      [|exact Hn].
    repeat constructor.
  - rewrite isSet_truthy. vm_compute. discriminate.
Defined.

Lemma getConfig_fields parseName env :
  (∀ n, n ∈ requiredVars → isSet env n) →
  ∃ cfg, getConfig parseName env = inr cfg
    ∧ env !! lit "STP_SFTP_HOST" = Some (sftp_host (sftp cfg))
    ∧ env !! lit "STP_SFTP_USERNAME" = Some (sftp_username (sftp cfg))
    ∧ env !! lit "STP_SFTP_PASSWORD" = Some (sftp_password (sftp cfg))
    ∧ env !! lit "STP_SFTP_PATH" = Some (sftp_path (sftp cfg))
    ∧ env !! lit "STP_S3_BUCKET" = Some (s3_bucket (s3 cfg))
    ∧ env !! lit "STP_PAPERTRAIL_HOST" = Some (pt_host (papertrail cfg))
    ∧ env !! lit "STP_PAPERTRAIL_PORT" = Some (pt_port (papertrail cfg))
    ∧ sftp_port (sftp cfg)
      = match env !! lit "STP_SFTP_PORT" with
        | Some (c :: v) => JStr (c :: v)
        | _ => JNum 22
        end
    ∧ s3_region (s3 cfg)
      = match env !! lit "STP_S3_REGION" with
        | Some (c :: v) => c :: v
        | _ => lit "us-east-1"
        end
    ∧ s3_path (s3 cfg) = sftp_host (sftp cfg) ++ lit "/" ++ sftp_path (sftp cfg)
    ∧ pt_hostname (papertrail cfg) = sftp_host (sftp cfg)
    ∧ pt_program (papertrail cfg) = parseName (sftp_path (sftp cfg)).
Proof.
  intros Hall. unfold requiredVars in Hall.
  assert (isSet env (lit "STP_SFTP_HOST")) as H1 by (apply Hall; repeat constructor).
  assert (isSet env (lit "STP_SFTP_USERNAME")) as H2 by (apply Hall; repeat constructor).
  assert (isSet env (lit "STP_SFTP_PASSWORD")) as H3 by (apply Hall; repeat constructor).
  assert (isSet env (lit "STP_SFTP_PATH")) as H4 by (apply Hall; repeat constructor).
  assert (isSet env (lit "STP_S3_BUCKET")) as H5 by (apply Hall; repeat constructor).
  assert (isSet env (lit "STP_PAPERTRAIL_HOST")) as H6 by (apply Hall; repeat constructor).
  assert (isSet env (lit "STP_PAPERTRAIL_PORT")) as H7 by (apply Hall; repeat constructor).
  clear Hall. unfold getConfig.
  read_set H1. read_set H2. read_set H3. read_set H4. read_set H5. read_set H6.
  read_set H7.
  unfold getEnvString at 1. unfold getEnv.
  rewrite (process_env_own env (lit "STP_SFTP_PORT")) by own.
  rewrite (process_env_own env (lit "STP_S3_REGION")) by own.
  destruct (env !! lit "STP_SFTP_PORT") as [[|c p]|];
    destruct (env !! lit "STP_S3_REGION") as [[|c' r]|];
    cbn [truthy ofOption DEFAULT_SFTP_PORT DEFAULT_AWS_REGION bindE];
    eexists; (split; [reflexivity|]); cbn [sftp s3 papertrail sftp_host sftp_port
      sftp_username sftp_password sftp_path s3_bucket s3_region s3_path pt_host pt_port
      pt_hostname pt_program]; repeat split; done.
Qed.


(** X7: when every required variable is set, [getConfig] returns a
    configuration whose fields are the values of the variables; the port
    defaults to the number 22 and the region to ['us-east-1'] when their
    variables are unset or empty; the store key is the host, a slash and
    the path; the collector's hostname is the SFTP host and its program
    name is derived from the path. *)
Theorem getConfig_ok parseName env :
  (∀ n, n ∈ requiredVars → isSet env n) →
  ∃ cfg, getConfig parseName env = inr cfg
    ∧ env !! lit "STP_SFTP_HOST" = Some (sftp_host (sftp cfg))
    ∧ env !! lit "STP_SFTP_USERNAME" = Some (sftp_username (sftp cfg))
    ∧ env !! lit "STP_SFTP_PASSWORD" = Some (sftp_password (sftp cfg))
    ∧ env !! lit "STP_SFTP_PATH" = Some (sftp_path (sftp cfg))
    ∧ env !! lit "STP_S3_BUCKET" = Some (s3_bucket (s3 cfg))
    ∧ env !! lit "STP_PAPERTRAIL_HOST" = Some (pt_host (papertrail cfg))
    ∧ env !! lit "STP_PAPERTRAIL_PORT" = Some (pt_port (papertrail cfg))
    ∧ sftp_port (sftp cfg)
      = match env !! lit "STP_SFTP_PORT" with
        | Some (c :: v) => JStr (c :: v)
        | _ => JNum 22
        end
    ∧ s3_region (s3 cfg)
      = match env !! lit "STP_S3_REGION" with
        | Some (c :: v) => c :: v
        | _ => lit "us-east-1"
        end
    ∧ s3_path (s3 cfg) = sftp_host (sftp cfg) ++ lit "/" ++ sftp_path (sftp cfg)
    ∧ pt_hostname (papertrail cfg) = sftp_host (sftp cfg)
    ∧ pt_program (papertrail cfg) = parseName (sftp_path (sftp cfg)).
Proof. apply getConfig_fields. Qed.

Lemma getConfig_ok_witness :
  ∃ cfg, getConfig (λ p, p) env0 = inr cfg
    ∧ env0 !! lit "STP_SFTP_HOST" = Some (sftp_host (sftp cfg))
    ∧ env0 !! lit "STP_SFTP_USERNAME" = Some (sftp_username (sftp cfg))
    ∧ env0 !! lit "STP_SFTP_PASSWORD" = Some (sftp_password (sftp cfg))
    ∧ env0 !! lit "STP_SFTP_PATH" = Some (sftp_path (sftp cfg))
    ∧ env0 !! lit "STP_S3_BUCKET" = Some (s3_bucket (s3 cfg))
    ∧ env0 !! lit "STP_PAPERTRAIL_HOST" = Some (pt_host (papertrail cfg))
    ∧ env0 !! lit "STP_PAPERTRAIL_PORT" = Some (pt_port (papertrail cfg))
    ∧ sftp_port (sftp cfg)
      = match env0 !! lit "STP_SFTP_PORT" with
        | Some (c :: v) => JStr (c :: v)
        | _ => JNum 22
        end
    ∧ s3_region (s3 cfg)
      = match env0 !! lit "STP_S3_REGION" with
        | Some (c :: v) => c :: v
        | _ => lit "us-east-1"
        end
    ∧ s3_path (s3 cfg) = sftp_host (sftp cfg) ++ lit "/" ++ sftp_path (sftp cfg)
    ∧ pt_hostname (papertrail cfg) = sftp_host (sftp cfg)
    ∧ pt_program (papertrail cfg) = sftp_path (sftp cfg).
Proof.
  apply (getConfig_ok (λ p, p) env0).
  intros n Hn. apply isSet_truthy.
  apply (proj1 (Forall_forall (λ n, truthy (ofOption (env0 !! n)) = true) requiredVars));
    [|exact Hn].
  repeat constructor.
Defined.

Example getConfig_env0 : getConfig (λ _, lit "app") env0 = inr cfg0.
Proof. vm_compute. reflexivity. Qed.

Lemma getConfig_inr_set parseName env cfg :
  getConfig parseName env = inr cfg → ∀ n, n ∈ requiredVars → isSet env n.
Proof.
  unfold getConfig. intros Hcfg.
  repeat match type of Hcfg with
         | context [getEnvString env ?name None] =>
             let H := fresh "Hread" in
             pose proof (getEnvString_inv env name None ltac:(own)) as H;
             destruct (getEnvString env name None);
             [ discriminate Hcfg | cbn [bindE] in Hcfg ]
         | context [getEnv env ?name ?d] =>
             destruct (getEnv env name d); [ discriminate Hcfg | cbn [bindE] in Hcfg ]
         | context [getEnvString env ?name (Some ?d)] =>
             destruct (getEnvString env name (Some d));
             [ discriminate Hcfg | cbn [bindE] in Hcfg ]
         end.
  intros n Hn. unfold requiredVars in Hn.
  repeat (apply elem_of_cons in Hn as [->|Hn];
          [ match goal with
            | H : _ ∧ (env !! ?name = Some ?v ∨ _) |- isSet env ?name =>
                destruct H as (? & [?|[_ ?]]); [by exists v|discriminate]
            end
          |]).
  by apply elem_of_nil in Hn.
Qed.

(** X8: [getConfig] returns a configuration exactly when each of the seven
    required variables has a non-empty value; [STP_SFTP_PORT] and
    [STP_S3_REGION] are never required. *)
Theorem getConfig_succeeds_iff parseName env :
  (∃ cfg, getConfig parseName env = inr cfg) ↔ ∀ n, n ∈ requiredVars → isSet env n.
Proof.
  split.
  - intros [cfg Hcfg]. by eapply getConfig_inr_set.
  - intros Hall. destruct (getConfig_fields parseName env Hall) as (cfg & Hcfg & _). eauto.
Qed.

Lemma getConfig_succeeds_iff_witness : ∃ cfg, getConfig (λ p, p) env0 = inr cfg.
Proof.
  apply (proj2 (getConfig_succeeds_iff (λ p, p) env0)).
  intros n Hn. apply isSet_truthy.
  apply (proj1 (Forall_forall (λ n, truthy (ofOption (env0 !! n)) = true) requiredVars));
    [|exact Hn].
  repeat constructor.
Defined.

(** ** More on the invocation *)

Lemma newS3s_app tr1 tr2 : newS3s (tr1 ++ tr2) = newS3s tr1 ++ newS3s tr2.
Proof. apply omap_app. Qed.

Lemma kmsOps_app tr1 tr2 : kmsOps (tr1 ++ tr2) = kmsOps tr1 ++ kmsOps tr2.
Proof. apply omap_app. Qed.

Lemma newS3s_LoggerInfo ls : newS3s (map LoggerInfo ls) = [].
Proof. by induction ls. Qed.

Lemma kmsOps_LoggerInfo ls : kmsOps (map LoggerInfo ls) = [].
Proof. by induction ls. Qed.

(** Write the state in [H] as an explicit record. *)
Ltac explicit_state H :=
  cbv beta iota delta
    [set_s3 set_old set_new set_stage set_session set_save set_forward set_logLines
     set_transport set_phase st_s3 st_old st_new st_stage st_session st_save
     st_forward st_logLines st_transport st_phase] in H.

(** Once the S3 handle exists no step creates another, and no step ever
    calls KMS or reads the store: these happen when the handler starts. *)
Lemma step_startOps cfg ev s :
  st_s3 s = true →
  st_s3 (step cfg ev s).1 = true
  ∧ newS3s (step cfg ev s).2 = []
  ∧ kmsOps (step cfg ev s).2 = []
  ∧ storeReads (step cfg ev s).2 = [].
Proof.
  intros Hs3. unfold step, seq.
  destruct (dispatch cfg ev s) as [s1 a1] eqn:Hd.
  assert (st_s3 s1 = true ∧ newS3s a1 = [] ∧ kmsOps a1 = [] ∧ storeReads a1 = [])
    as (H1 & Hn1 & Hk1 & Hr1).
  { destruct s as [s3c old new stage session save forward logLines transport ph].
    cbn in Hs3. subst s3c.
    destruct ev as [[e|body]|[e|pw]|[e|]|[e|]|chunk| |e|[e|]|e|].
    1,2: destruct old; cbn in Hd; injection Hd as <- <-; done.
    1-9: destruct stage; cbn in Hd;
      unfold getLogFileLatest_catch, getLogFileLatest_end, update, emit, seq in Hd;
      cbn in Hd; injection Hd as <- <-; done.
    1,2: destruct save as [[| |es]|]; cbn in Hd; injection Hd as <- <-; done.
    - destruct transport; cbn in Hd; injection Hd as <- <-; done.
    - destruct transport; cbn in Hd; injection Hd as <- <-; [|done].
      cbn. by rewrite newS3s_app, kmsOps_app, storeReads_app, newS3s_LoggerInfo,
        kmsOps_LoggerInfo, storeReads_LoggerInfo. }
  destruct (handler_chain cfg s1) as [s2 a2] eqn:Hc. cbn [fst snd].
  rewrite newS3s_app, kmsOps_app, storeReads_app, Hn1, Hk1, Hr1.
  clear Hd Hn1 Hk1 Hr1 a1 s Hs3.
  destruct s1 as [s3c old new stage session save forward logLines transport ph].
  cbn in H1. subst s3c.
  unfold handler_chain, handler_onData, handler_sending, seq in Hc.
  cbn [st_phase st_old st_new] in Hc.
  destruct ph.
  - destruct old as [|old0|eo], new as [|new0|en]; try (injection Hc as <- <-; done).
    cbn in Hc. revert Hc.
    destruct (compareLogFiles old0 new0), old0 as [[|c o]|];
      destruct save as [[| |es]|], forward as [[| |ef]|];
      intros Hc; cbn in Hc; explicit_state Hc; injection Hc as <- <-; done.
  - destruct save as [[| |es]|], forward as [[| |ef]|]; injection Hc as <- <-; done.
  - injection Hc as <- <-; done.
Qed.

Lemma run_startOps cfg es st :
  st_s3 st.1 = true →
  st_s3 (run cfg st es).1 = true
  ∧ newS3s (run cfg st es).2 = newS3s st.2
  ∧ kmsOps (run cfg st es).2 = kmsOps st.2
  ∧ storeReads (run cfg st es).2 = storeReads st.2.
Proof.
  revert st. induction es as [|ev es IH]; intros [s tr] Hs3; [done|].
  cbn [fst] in Hs3. cbn [run fst snd].
  destruct (step_startOps cfg ev s Hs3) as (H1 & H2 & H3 & H4).
  destruct (step cfg ev s) as [s' acts]. cbn [fst snd] in *.
  destruct (IH (s', tr ++ acts) H1) as (H5 & H6 & H7 & H8). cbn [fst snd] in *.
  rewrite H6, H7, H8, newS3s_app, kmsOps_app, storeReads_app, H2, H3, H4, !app_nil_r.
  done.
Qed.

(** X9: the S3 client is created at most once per process: an invocation
    that finds the handle creates none, one that does not creates exactly
    one, for the configured region, before its first S3 call; from then on
    the handle exists. *)
Theorem connectToS3_once isLam cfg s3client es :
  let r := run cfg (handler isLam cfg s3client) es in
  st_s3 r.1 = true
  ∧ newS3s r.2 = (if s3client then [] else [s3_region (s3 cfg)])
  ∧ ∃ acts, r.2 = (if s3client then [] else [NewS3 (s3_region (s3 cfg))])
                    ++ S3GetObject (s3_bucket (s3 cfg)) (s3_path (s3 cfg)) :: acts.
Proof.
  intros r.
  assert (st_s3 (handler isLam cfg s3client).1 = true) as Hs3
    by (by destruct isLam, s3client).
  destruct (run_startOps cfg es _ Hs3) as (H1 & H2 & _ & _).
  destruct (run_trace cfg es (handler isLam cfg s3client)) as [acts Hacts].
  fold r in H1, H2, Hacts. rewrite H1, H2, Hacts.
  destruct isLam, s3client; repeat split; try done; eexists; reflexivity.
Qed.

(** X10: an invocation reads the stored snapshot exactly once, under the
    configured bucket and key, and whatever it saves it saves at most once
    and under that same bucket and key. *)
Theorem store_key isLam cfg s3client es :
  let r := run cfg (handler isLam cfg s3client) es in
  storeReads r.2 = [(s3_bucket (s3 cfg), s3_path (s3 cfg))]
  ∧ length (saves r.2) ≤ 1
  ∧ ∀ body bucket key, (body, bucket, key) ∈ saves r.2 →
      bucket = s3_bucket (s3 cfg) ∧ key = s3_path (s3 cfg).
Proof.
  intros r.
  assert (st_s3 (handler isLam cfg s3client).1 = true) as Hs3
    by (by destruct isLam, s3client).
  destruct (run_startOps cfg es _ Hs3) as (_ & _ & _ & H4).
  fold r in H4. rewrite H4. split; [by destruct isLam, s3client|].
  destruct (reachable_Inv isLam cfg s3client es) as (_ & _ & Hmain). fold r in Hmain.
  assert (saves r.2 = [] ∨ ∃ new, saves r.2 = [(new, s3_bucket (s3 cfg), s3_path (s3 cfg))])
    as [->|[new ->]].
  { destruct (st_new r.1) as [|new|e].
    - left. by destruct Hmain as (_ & (_ & _ & _ & ? & _) & _).
    - destruct (st_old r.1) as [|old|e].
      + left. by destruct Hmain as (_ & (_ & _ & _ & ? & _) & _).
      + destruct Hmain as (_ & -> & _). destruct (savesWhen old new); eauto.
      + left. by destruct Hmain as (_ & (_ & _ & _ & ? & _) & _).
    - left. by destruct Hmain as (_ & (_ & _ & _ & ? & _) & _). }
  - split; [cbn; lia|]. intros ? ? ? Hin. by apply elem_of_nil in Hin.
  - split; [cbn; lia|]. intros ? ? ? Hin. apply list_elem_of_singleton in Hin.
    by injection Hin as _ -> ->.
Qed.

Lemma store_key_witness :
  let r := run cfg0 (handler false cfg0 false)
             (GetObjectCb (inr (lit "a")) :: fetched (text ["a"; "b"]%string)) in
  (text ["a"; "b"]%string, s3_bucket (s3 cfg0), s3_path (s3 cfg0)) ∈ saves r.2
  ∧ s3_bucket (s3 cfg0) = s3_bucket (s3 cfg0) ∧ s3_path (s3 cfg0) = s3_path (s3 cfg0).
Proof.
  assert ((text ["a"; "b"]%string, s3_bucket (s3 cfg0), s3_path (s3 cfg0))
          ∈ saves (run cfg0 (handler false cfg0 false)
                     (GetObjectCb (inr (lit "a")) :: fetched (text ["a"; "b"]%string))).2)
    as Hin by (vm_compute; left).
  split; [exact Hin|].
  exact (proj2 (proj2 (store_key false cfg0 false
                         (GetObjectCb (inr (lit "a")) :: fetched (text ["a"; "b"]%string))))
           _ _ _ Hin).
Defined.

(** [toString( 'ascii' )] gives one code unit below 128 for each byte. *)
Lemma toString_ascii_range bytes :
  length (toString_ascii bytes) = length bytes
  ∧ Forall (λ c, (c < 128)%N) (toString_ascii bytes).
Proof.
  unfold toString_ascii. split; [apply length_map|].
  apply Forall_map, Forall_forall. intros b _. by destruct b.
Qed.

(** X11: KMS is called only inside Lambda: outside it no step of any run
    calls it and the connection is requested at once with the configured
    password; inside it KMS is called once, with the buffer made of the
    configured password read as base64, and the connection is requested
    when the plaintext arrives, with the plaintext's bytes read as ASCII
    (the highest bit of each byte cleared) as password. *)
Theorem decrypt_use isLam cfg s3client es :
  let r := run cfg (handler isLam cfg s3client) es in
  kmsOps r.2 = (if isLam then [Buffer_from (sftp_password (sftp cfg)) "base64"] else [])
  ∧ (isLam = false → sftpOps (handler isLam cfg s3client).2 = [SftpConnect (sftp cfg)])
  ∧ (∀ Plaintext, st_stage r.1 = Decrypting →
       sftpOps r.2 = []
       ∧ sftpOps (step cfg (DecryptCb (inr Plaintext)) r.1).2
         = [SftpConnect (setPassword (sftp cfg) (toString_ascii Plaintext))]
       ∧ length (toString_ascii Plaintext) = length Plaintext
       ∧ Forall (λ c, (c < 128)%N) (toString_ascii Plaintext)).
Proof.
  intros r.
  assert (st_s3 (handler isLam cfg s3client).1 = true) as Hs3
    by (by destruct isLam, s3client).
  destruct (run_startOps cfg es _ Hs3) as (_ & _ & H3 & _).
  fold r in H3. rewrite H3. split; [by destruct isLam, s3client|split].
  - intros ->. destruct cfg as [[h p u pw pa] c3 cp], s3client; done.
  - intros Plaintext Hst.
    destruct (reachable_Inv isLam cfg s3client es) as (Hold & Hstage & Hmain).
    fold r in Hold, Hstage, Hmain. rewrite Hst in Hstage. destruct Hstage as [Hnew Hops].
    split; [done|]. split; [|apply toString_ascii_range].
    rewrite Hnew in Hmain. destruct Hmain as (Hph & _ & _).
    destruct (step cfg (DecryptCb (inr Plaintext)) r.1) as [s' acts] eqn:Hstep.
    destruct r.1 as [s3c old new stage session save forward logLines transport ph].
    cbn in Hst, Hnew, Hph, Hold. subst stage new ph.
    destruct old as [|old0|eo]; [| |by destruct (Hold eo)]; eval_step Hstep; done.
Qed.

(** Outside Lambda; and inside it, with a plaintext whose second byte has
    its highest bit set. *)
Lemma decrypt_use_witness :
  sftpOps (handler false cfg0 false).2 = [SftpConnect (sftp cfg0)]
  ∧ sftpOps (step cfg0 (DecryptCb (inr [x70; xec; x61; x69; x6e]))
               (handler true cfg0 false).1).2
    = [SftpConnect (setPassword (sftp cfg0) (toString_ascii [x70; xec; x61; x69; x6e]))]
  ∧ toString_ascii [x70; xec; x61; x69; x6e] = lit "plain".
Proof.
  split; [|split].
  - apply (decrypt_use false cfg0 false []). reflexivity.
  - apply (proj2 (proj2 (decrypt_use true cfg0 false [])) [x70; xec; x61; x69; x6e]).
    vm_compute; reflexivity.
  - reflexivity.
Defined.

(** *** The SFTP session *)

Lemma handler_sftpInv isLam cfg s3client :
  sftpInv cfg (handler isLam cfg s3client).1 (handler isLam cfg s3client).2.
Proof.
  exists (sftp_password (sftp cfg)).
  destruct cfg as [[h p u pw pa] c3 cp], isLam, s3client; done.
Qed.

Lemma step_sftpInv cfg ev s tr :
  sftpInv cfg s tr → sftpInv cfg (step cfg ev s).1 (tr ++ (step cfg ev s).2).
Proof.
  intros [password HI].
  destruct (st_stage s) eqn:Hst.
  5: { destruct (step_settled cfg ev s Hst) as (H1 & H2 & H3 & H4).
       exists password. cbv zeta in *. by rewrite H1, H2, H3, sftpOps_app, H4, app_nil_r. }
  all: unfold step, seq;
    destruct (dispatch cfg ev s) as [s1 a1] eqn:Hd;
    destruct (chain_frame cfg s1) as (_ & Hn & Hs & Hse & Ha);
    destruct (handler_chain cfg s1) as [s2 a2]; cbn [fst snd] in *;
    unfold sftpInv; rewrite Hn, Hs, Hse, !sftpOps_app, Ha, app_nil_r;
    clear Hn Hs Hse Ha s2 a2;
    destruct s as [s3c old new stage session save forward logLines transport ph];
    cbn in Hst, HI; subst stage; destruct HI as (-> & -> & Hops);
    destruct ev as [[e|body]|[e|pw]|[e|]|[e|]|chunk| |e|[e|]|e|];
    try destruct old as [|old0|eo];
    try destruct save as [[| |es]|];
    try destruct transport;
    cbn in Hd;
    unfold getLogFileLatest_catch, getLogFileLatest_end, update, emit, seq in Hd;
    cbn in Hd; explicit_state Hd; injection Hd as <- <-; cbn;
    rewrite ?sftpOps_app, ?sftpOps_LoggerInfo, ?Hops, ?trim_idemp.
  all: try (exists password; cbn; auto; fail).
  all: try (eexists; cbn; auto; fail).
Qed.

Lemma reachable_sftpInv isLam cfg s3client es :
  sftpInv cfg (run cfg (handler isLam cfg s3client) es).1
    (run cfg (handler isLam cfg s3client) es).2.
Proof.
  assert (∀ st, sftpInv cfg st.1 st.2 → sftpInv cfg (run cfg st es).1 (run cfg st es).2)
    as Hrun.
  { induction es as [|ev es IH]; intros [s tr] HI; [done|].
    cbn [run fst snd]. pose proof (step_sftpInv cfg ev s tr HI) as HI'.
    destruct (step cfg ev s) as [s' acts]. by apply IH. }
  apply Hrun, handler_sftpInv.
Qed.

(** X12: the SFTP operations of a run are a connect, then a get, then an
    end, each at most once; and whenever the remote fetch has succeeded the
    session has been ended and the contents obtained carry no white space
    at either end. *)
Theorem getLogFileLatest_session isLam cfg s3client es :
  let r := run cfg (handler isLam cfg s3client) es in
  (∃ password ops,
     [SftpConnect (setPassword (sftp cfg) password); SftpGet (sftp_path (sftp cfg)); SftpEnd]
     = sftpOps r.2 ++ ops)
  ∧ (∀ contents, st_new r.1 = Fulfilled contents →
       st_session r.1 = false ∧ trim contents = contents
       ∧ ∃ password,
           sftpOps r.2 = [SftpConnect (setPassword (sftp cfg) password);
                          SftpGet (sftp_path (sftp cfg)); SftpEnd]).
Proof.
  intros r.
  destruct (reachable_sftpInv isLam cfg s3client es) as [password HI].
  destruct (reachable_Inv isLam cfg s3client es) as (_ & Hstage & _).
  fold r in HI, Hstage. cbv zeta in HI. split.
  - exists password.
    destruct (st_stage r.1); try destruct (st_new r.1);
      repeat match goal with
             | H : _ ∧ _ |- _ => destruct H
             | H : _ ∨ _ |- _ => destruct H
             end;
      match goal with H : sftpOps _ = _ |- _ => rewrite H end; eexists; reflexivity.
  - intros contents Hnew. rewrite Hnew in HI, Hstage.
    destruct (st_stage r.1);
      try solve [destruct Hstage; discriminate | discriminate Hstage | by destruct HI].
    destruct HI as (? & ? & ?). eauto.
Qed.

Lemma getLogFileLatest_session_witness :
  let r := run cfg0 (handler false cfg0 false) (fetched (text ["  a"; "b "; ""]%string)) in
  st_session r.1 = false ∧ trim (text ["a"; "b"]%string) = text ["a"; "b"]%string
  ∧ ∃ password,
      sftpOps r.2 = [SftpConnect (setPassword (sftp cfg0) password);
                     SftpGet (sftp_path (sftp cfg0)); SftpEnd].
Proof.
  apply (getLogFileLatest_session false cfg0 false (fetched (text ["  a"; "b "; ""]%string))).
  vm_compute; reflexivity.
Defined.

(** *** The lines sent to the collector *)

Lemma step_idle_eq cfg ev s tr :
  Inv cfg s tr → dispatch cfg ev s = (s, []) → step cfg ev s = (s, []).
Proof.
  intros HI Hd. unfold step, seq. by rewrite Hd, (chain_stable _ _ _ HI).
Qed.

Ltac idle_fwd :=
  match goal with
  | HI : Inv ?cfg ?s ?tr, Hstep : step ?cfg ?ev ?s = _ |- _ =>
      solve [ rewrite (step_idle_eq cfg ev s tr HI eq_refl) in Hstep;
              injection Hstep as <- <-; by rewrite app_nil_r ]
  end.

Ltac finish_fwd :=
  unfold forwardedInv; cbn; use_trace; cbn;
  repeat match goal with
         | H : compareLogFiles ?o ?n = _ |- context [compareLogFiles ?o ?n] => rewrite H
         end;
  cbn; try done.

Lemma step_forwardedInv cfg ev s tr s' acts :
  step cfg ev s = (s', acts) → Inv cfg s tr → forwardedInv s tr →
  forwardedInv s' (tr ++ acts).
Proof.
  destruct s as [s3c old new stage session save forward logLines transport ph].
  intros Hstep HI HF. pose proof HI as (Hold & Hstage & Hmain).
  unfold quiet in Hmain.
  cbn [st_old st_new st_stage st_save st_forward st_phase st_transport st_logLines]
    in Hold, Hstage, Hmain.
  destruct new as [|new0|en]; [|destruct old as [|old0|eo]|].
  - destruct Hmain as (-> & (-> & -> & -> & Hs & Hf & Hi) & Hc).
    destruct ev as [[e|body]|[e|pw]|[e|]|[e|]|chunk| |e|[e|]|e|];
      try idle_fwd;
      destruct stage as [| | |chunks|];
      try solve [destruct Hstage; discriminate | discriminate Hstage | done];
      try idle_fwd;
      destruct old as [|old0|eo]; try (by destruct (Hold eo));
      try idle_fwd.
    all: clear HI HF.
    all: try (eval_step Hstep; finish_fwd; fail).
    destruct (compareLogFiles old0 (trim (join [] chunks))) eqn:Hb;
      destruct s3c, old0 as [[|c o]|].
    all: eval_step Hstep; finish_fwd.
  - destruct Hmain as (-> & (-> & -> & -> & Hs & Hf & Hi) & Hc).
    destruct stage as [| | |chunks|];
      try solve [destruct Hstage; discriminate | discriminate Hstage | done].
    destruct ev as [[e|body]|[e|pw]|[e|]|[e|]|chunk| |e|[e|]|e|];
      try idle_fwd.
    all: clear HI HF.
    + destruct (compareLogFiles None new0) eqn:Hb; destruct s3c.
      all: eval_step Hstep; finish_fwd.
    + destruct (compareLogFiles (Some body) new0) eqn:Hb; destruct s3c, body as [|c o].
      all: eval_step Hstep; finish_fwd.
  - destruct stage as [| | |chunks|];
      try solve [destruct Hstage; discriminate | discriminate Hstage | done].
    destruct ev as [[e|body]|[e|pw]|[e|]|[e|]|chunk| |e|[e|]|e|];
      try idle_fwd.
    all: unfold decided, savesWhen, forwardsWhen in Hmain;
      cbn [st_old st_new st_stage st_save st_forward st_phase st_transport st_logLines]
        in Hmain;
      destruct Hmain as (_ & Hs & Hf & Hsave & Hfwd & Hph).
    all: destruct (compareLogFiles old0 new0) as [|c batch] eqn:Hb;
      destruct old0 as [[|c' o]|], save as [[| |es]|], forward as [[| |ef]|];
      cbn in Hsave, Hfwd; destruct_and?; try discriminate;
      destruct ph; cbn in Hph; destruct_and?; try done;
      try destruct Hph as ([er|res] & Hc & Hr); try discriminate;
      try (destruct Hr as [Hr|Hr]; try discriminate; injection Hr as ->).
    all: subst; try idle_fwd.
    all: try (destruct transport; try idle_fwd).
    all: unfold forwardedInv in HF; cbn in HF; clear HI.
    all: eval_step Hstep; finish_fwd.
  - by destruct (Hold eo).
  - destruct Hmain as (-> & (-> & -> & -> & Hs & Hf & Hi) & Hc).
    destruct stage as [| | |chunks|];
      try solve [destruct Hstage; discriminate | discriminate Hstage | done].
    destruct ev as [[e|body]|[e|pw]|[e|]|[e|]|chunk| |e|[e|]|e|];
      try idle_fwd.
    all: destruct old as [|old0|eo]; try (by destruct (Hold eo));
      try idle_fwd.
    all: clear HI HF.
    all: eval_step Hstep; finish_fwd.
Qed.

Lemma reachable_forwardedInv isLam cfg s3client es :
  forwardedInv (run cfg (handler isLam cfg s3client) es).1
    (run cfg (handler isLam cfg s3client) es).2.
Proof.
  assert (∀ st, Inv cfg st.1 st.2 → forwardedInv st.1 st.2 →
                forwardedInv (run cfg st es).1 (run cfg st es).2) as Hrun.
  { induction es as [|ev es IH]; intros [s tr] HI HF; [done|].
    cbn [run fst snd]. destruct (step cfg ev s) as [s' acts] eqn:Hstep.
    apply IH; cbn [fst snd].
    - by eapply step_Inv.
    - by eapply step_forwardedInv. }
  apply Hrun; [apply handler_Inv|]. by destruct isLam, s3client.
Qed.

(** X13: the lines sent to the collector are either none or exactly the
    lines of the diff of the two snapshots, in order and once; they are
    these lines as soon as the forward has succeeded, and joined with
    newlines they give the diff back. *)
Theorem forwarded_lines isLam cfg s3client es :
  let r := run cfg (handler isLam cfg s3client) es in
  (infos r.2 = []
   ∨ ∃ old new, st_old r.1 = Fulfilled old ∧ st_new r.1 = Fulfilled new
       ∧ compareLogFiles old new ≠ []
       ∧ infos r.2 = split LF (compareLogFiles old new)
       ∧ join [LF] (infos r.2) = compareLogFiles old new)
  ∧ (st_forward r.1 = Some (Fulfilled ()) → infos r.2 ≠ []).
Proof.
  intros r.
  pose proof (reachable_forwardedInv isLam cfg s3client es) as HF.
  destruct (reachable_Inv isLam cfg s3client es) as (_ & _ & Hmain).
  fold r in HF, Hmain. unfold forwardedInv in HF.
  destruct (st_forward r.1) as [p|] eqn:Hfwd; [|by split; [left|]].
  assert (∃ old new, st_old r.1 = Fulfilled old ∧ st_new r.1 = Fulfilled new
                     ∧ decided cfg old new r.1 r.2) as (old & new & Ho & Hn & Hdec).
  { unfold quiet in Hmain. rewrite Hfwd in Hmain.
    destruct (st_new r.1) as [|new|e]; [by destruct Hmain as (_ & (_ & ? & _) & _)|
                                        |by destruct Hmain as (_ & (_ & ? & _) & _)].
    destruct (st_old r.1) as [|old|e]; [by destruct Hmain as (_ & (_ & ? & _) & _)|
                                        |by destruct Hmain as (_ & (_ & ? & _) & _)].
    eauto. }
  destruct Hdec as (_ & _ & _ & _ & Hf & _). rewrite Hfwd in Hf.
  destruct Hf as (Hwhen & Hlines & Htr). rewrite Hlines in HF.
  assert (compareLogFiles old new ≠ []) as Hne.
  { unfold forwardsWhen in Hwhen. by destruct (compareLogFiles old new). }
  split.
  - destruct (st_transport r.1); [by left|right].
    exists old, new. rewrite HF. repeat split; try done. apply join_split.
  - intros [= ->]. rewrite Htr in HF. rewrite HF. apply split_nonempty.
Qed.

Lemma forwarded_lines_witness :
  infos (run cfg0 (handler false cfg0 false)
           (GetObjectCb (inr (lit "a")) :: fetched (text ["a"; "b"; "c"]%string)
              ++ [PapertrailConnect])).2 ≠ [].
Proof.
  apply (forwarded_lines false cfg0 false
           (GetObjectCb (inr (lit "a")) :: fetched (text ["a"; "b"; "c"]%string)
              ++ [PapertrailConnect])).
  vm_compute; reflexivity.
Defined.

(** X14: the callback of the invocation is called at most once in any
    run. *)
Theorem callback_once isLam cfg s3client es :
  length (callbacks (run cfg (handler isLam cfg s3client) es).2) ≤ 1.
Proof.
  destruct (reachable_Inv isLam cfg s3client es) as (_ & _ & Hmain).
  destruct (st_new (run cfg (handler isLam cfg s3client) es).1) as [|new|e].
  - destruct Hmain as (_ & _ & ->). cbn. lia.
  - destruct (st_old (run cfg (handler isLam cfg s3client) es).1) as [|old|e].
    + destruct Hmain as (_ & _ & ->). cbn. lia.
    + destruct Hmain as (_ & _ & _ & _ & _ & Hph).
      destruct (st_phase (run cfg (handler isLam cfg s3client) es).1); [done| |].
      * destruct Hph as [-> _]. cbn. lia.
      * destruct Hph as (r' & -> & _). cbn. lia.
    + destruct Hmain as (_ & _ & ->). cbn. lia.
  - destruct Hmain as (_ & _ & ->). cbn. lia.
Qed.



(** X16: as long as one of the two fetches has not delivered, nothing has
    been saved, no transport to the collector has been opened and no line
    has been sent. *)
Theorem nothing_before_both_fetched isLam cfg s3client es :
  let r := run cfg (handler isLam cfg s3client) es in
  (∀ old, st_old r.1 ≠ Fulfilled old) ∨ (∀ new, st_new r.1 ≠ Fulfilled new) →
  saves r.2 = [] ∧ forwards r.2 = [] ∧ infos r.2 = []
  ∧ st_save r.1 = None ∧ st_forward r.1 = None.
Proof.
  intros r Hnot.
  destruct (reachable_Inv isLam cfg s3client es) as (_ & _ & Hmain).
  fold r in Hmain. unfold quiet in Hmain.
  destruct (st_new r.1) as [|new|e].
  - by destruct Hmain as (_ & (? & ? & _ & ? & ? & ?) & _).
  - destruct (st_old r.1) as [|old|e].
    + by destruct Hmain as (_ & (? & ? & _ & ? & ? & ?) & _).
    + by destruct Hnot as [Hnot|Hnot]; [destruct (Hnot old)|destruct (Hnot new)].
    + by destruct Hmain as (_ & (? & ? & _ & ? & ? & ?) & _).
  - by destruct Hmain as (_ & (? & ? & _ & ? & ? & ?) & _).
Qed.

Lemma nothing_before_both_fetched_witness :
  let r := run cfg0 (handler false cfg0 false) (fetched (text ["a"; "b"]%string)) in
  saves r.2 = [] ∧ forwards r.2 = [] ∧ infos r.2 = []
  ∧ st_save r.1 = None ∧ st_forward r.1 = None.
Proof.
  apply (nothing_before_both_fetched false cfg0 false (fetched (text ["a"; "b"]%string))).
  left. intros old. vm_compute. discriminate.
Defined.

(** X17: when the stored snapshot is non-empty and every line of the new
    snapshot is already a line of it, the run saves nothing, forwards
    nothing and reports success with an empty result. *)
Theorem unchanged_log isLam cfg s3client es old new :
  let r := run cfg (handler isLam cfg s3client) es in
  st_old r.1 = Fulfilled (Some old) → st_new r.1 = Fulfilled new →
  old ≠ [] →
  (∀ line, line ∈ split LF new → line ∈ split LF old) →
  saves r.2 = [] ∧ forwards r.2 = [] ∧ infos r.2 = [] ∧ callbacks r.2 = [inr []].
Proof.
  intros r Ho Hn Hne Hsub.
  destruct (reachable_Inv isLam cfg s3client es) as (_ & _ & Hmain).
  pose proof (reachable_forwardedInv isLam cfg s3client es) as HF.
  fold r in Hmain, HF. rewrite Hn, Ho in Hmain.
  destruct Hmain as (_ & Hs & Hf & Hsave & Hfwd & Hph).
  unfold savesWhen, forwardsWhen in *.
  rewrite (compareLogFiles_subset old new Hsub) in *.
  destruct old as [|c old]; [done|]. cbn in Hs, Hf, Hsave, Hfwd.
  unfold forwardedInv in HF. unfold sendResult in Hph.
  destruct (st_save r.1); [done|]. destruct (st_forward r.1); [by destruct Hfwd|].
  repeat split; try done.
  destruct (st_phase r.1); [done|by destruct Hph|].
  destruct Hph as ([e|res] & Hc & Hr); [by destruct Hr|].
  cbn in Hr. by injection Hr as <-.
Qed.

Lemma unchanged_log_witness :
  let r := run cfg0 (handler false cfg0 false)
             (GetObjectCb (inr (text ["a"; "b"; "c"]%string))
                :: fetched (text ["c"; "a"]%string)) in
  saves r.2 = [] ∧ forwards r.2 = [] ∧ infos r.2 = [] ∧ callbacks r.2 = [inr []].
Proof.
  apply (unchanged_log false cfg0 false
           (GetObjectCb (inr (text ["a"; "b"; "c"]%string)) :: fetched (text ["c"; "a"]%string))
           (text ["a"; "b"; "c"]%string) (text ["c"; "a"]%string)).
  - vm_compute; reflexivity.
  - vm_compute; reflexivity.
  - vm_compute; discriminate.
  - apply (proj1 (Forall_forall (λ line, line ∈ split LF (text ["a"; "b"; "c"]%string))
                    (split LF (text ["c"; "a"]%string)))).
    vm_compute. repeat constructor.
Defined.

(** *** A whole run *)

Lemma join_nil_concat (ls : list jsstring) : join [] ls = concat ls.
Proof.
  induction ls as [|l ls IH]; [done|].
  destruct ls as [|l' ls]; [cbn; by rewrite app_nil_r|].
  change (join [] (l :: l' :: ls)) with (l ++ [] ++ join [] (l' :: ls)).
  by rewrite IH.
Qed.

(** While the stream delivers data the chunks are collected in arrival
    order and nothing else happens. *)
Lemma run_stream cfg chunks s tr acc :
  st_stage s = Streaming acc → st_new s = Pending → st_phase s = Fetching →
  (∀ e, st_old s ≠ Rejected e) →
  run cfg (s, tr) (map StreamData chunks) = (set_stage (Streaming (acc ++ chunks)) s, tr).
Proof.
  revert s tr acc. induction chunks as [|chunk chunks IH]; intros s tr acc Hst Hn Hph Ho.
  - destruct s. cbn in *. subst. by rewrite app_nil_r.
  - cbn [map run fst snd].
    assert (step cfg (StreamData chunk) s = (set_stage (Streaming (acc ++ [chunk])) s, []))
      as ->.
    { destruct s as [s3c old new stage session save forward logLines transport ph].
      cbn in Hst, Hn, Hph, Ho. subst.
      destruct old as [|old0|eo]; [done|done|by destruct (Ho eo)]. }
    rewrite app_nil_r, (IH _ _ (acc ++ [chunk])); try by destruct s.
    destruct s. cbn. by rewrite <- app_assoc.
Qed.

(** X18: the remote fetch resolves with the chunks of the stream
    concatenated in arrival order and trimmed, after a connect, a get and
    an end of the session, whatever the number of chunks. *)
Theorem getLogFileLatest_contents cfg s3client chunks :
  let r := run cfg (handler false cfg s3client)
             (ConnectSettled None :: GetSettled None :: map StreamData chunks
                ++ [StreamEnd]) in
  st_new r.1 = Fulfilled (trim (concat chunks))
  ∧ st_session r.1 = false
  ∧ sftpOps r.2 = [SftpConnect (sftp cfg); SftpGet (sftp_path (sftp cfg)); SftpEnd]
  ∧ callbacks r.2 = [].
Proof.
  intros r. unfold r.
  change (ConnectSettled None :: GetSettled None :: map StreamData chunks ++ [StreamEnd])
    with ([ConnectSettled None; GetSettled None] ++ map StreamData chunks ++ [StreamEnd]).
  rewrite !run_app.
  destruct (run cfg (handler false cfg s3client) [ConnectSettled None; GetSettled None])
    as [s tr] eqn:Hrun.
  assert (st_stage s = Streaming [] ∧ st_new s = Pending ∧ st_phase s = Fetching
          ∧ st_old s = Pending
          ∧ sftpOps tr = [SftpConnect (sftp cfg); SftpGet (sftp_path (sftp cfg))]
          ∧ callbacks tr = []) as (Hst & Hn & Hph & Ho & Hops & Hc).
  { destruct cfg as [[h p u pw pa] c3 cp], s3client; cbn in Hrun;
      injection Hrun as <- <-; done. }
  rewrite (run_stream cfg chunks s tr []) by (rewrite ?Ho; done).
  cbn [run fst snd app].
  destruct (step cfg StreamEnd (set_stage (Streaming chunks) s)) as [s' acts] eqn:Hstep.
  destruct s as [s3c old new stage session save forward logLines transport ph].
  cbn in Hst, Hn, Hph, Ho. subst.
  eval_step Hstep. cbn. rewrite sftpOps_app, callbacks_app, Hops, Hc, join_nil_concat.
  done.
Qed.

Ltac run_step :=
  cbn [run fst snd];
  match goal with
  | |- context [step ?cfg ?ev ?s] =>
      let H := fresh "Hstep" in
      destruct (step cfg ev s) as [? ?] eqn:H; eval_step H
  end.

(** The run in which the store answers first, the remote log arrives in
    [chunks], and the save and the forward succeed in this order. *)
Lemma run_in_order cfg s3client stored chunks :
  let old := match stored with inl _ => None | inr body => Some body end in
  let new := trim (concat chunks) in
  let r := run cfg (handler false cfg s3client)
             (GetObjectCb stored :: ConnectSettled None :: GetSettled None
                :: map StreamData chunks
                ++ [StreamEnd; PutObjectCb None; PapertrailConnect]) in
  saves r.2 = (if savesWhen old new
               then [(new, s3_bucket (s3 cfg), s3_path (s3 cfg))] else [])
  ∧ infos r.2 = (if forwardsWhen old new then split LF (compareLogFiles old new) else [])
  ∧ callbacks r.2
    = [inr ((if savesWhen old new then [()] else [])
            ++ (if forwardsWhen old new then [()] else []))]
  ∧ st_phase r.1 = Done ∧ st_session r.1 = false ∧ st_transport r.1 = false.
Proof.
  intros old new r. unfold r.
  change (GetObjectCb stored :: ConnectSettled None :: GetSettled None
            :: map StreamData chunks ++ [StreamEnd; PutObjectCb None; PapertrailConnect])
    with ([GetObjectCb stored; ConnectSettled None; GetSettled None]
            ++ map StreamData chunks ++ [StreamEnd; PutObjectCb None; PapertrailConnect]).
  rewrite !run_app.
  destruct (run cfg (handler false cfg s3client)
              [GetObjectCb stored; ConnectSettled None; GetSettled None])
    as [s tr] eqn:Hrun.
  assert (s = {| st_s3 := true; st_old := Fulfilled old; st_new := Pending;
                 st_stage := Streaming []; st_session := true; st_save := None;
                 st_forward := None; st_logLines := []; st_transport := false;
                 st_phase := Fetching |}
          ∧ saves tr = [] ∧ infos tr = [] ∧ callbacks tr = []) as (-> & Hs & Hi & Hc).
  { destruct cfg as [[h p u pw pa] c3 cp], s3client, stored as [e|body]; cbn in Hrun;
      injection Hrun as <- <-; done. }
  rewrite (run_stream cfg chunks _ tr []) by done.
  cbv beta iota delta [set_stage st_s3 st_old st_new st_session st_save st_forward
                         st_logLines st_transport st_phase app].
  unfold savesWhen, forwardsWhen.
  assert (trim (join [] chunks) = new) as Hnew by (by rewrite join_nil_concat).
  destruct (compareLogFiles old new) as [|c batch] eqn:Hb; rewrite <- Hnew in Hb;
    destruct old as [[|c' o]|]; repeat run_step;
    cbn [fst snd]; rewrite ?Hnew; autorewrite with trace; rewrite Hs, Hi, Hc; done.
Qed.

Example run_in_order_scenario_A :
  let r := run cfg0 (handler false cfg0 false)
             (GetObjectCb (inr (text ["a"; "b"; "c"]%string))
                :: ConnectSettled None :: GetSettled None
                :: map StreamData [text ["a"; "b"]%string; text [""; "c"; "d"; ""]%string]
                ++ [StreamEnd; PutObjectCb None; PapertrailConnect]) in
  saves r.2 = [(text ["a"; "b"; "c"; "d"]%string, s3_bucket (s3 cfg0), s3_path (s3 cfg0))]
  ∧ infos r.2 = [lit "d"]
  ∧ callbacks r.2 = [inr [(); ()]].
Proof. vm_compute. repeat split; reflexivity. Qed.

(** *** Every order of completions *)











(** What these two runs did. *)
Example complete_run_traces :
  (run cfg0 (handler true cfg0 false)
     [DecryptCb (inr [x70]); ConnectSettled None; GetSettled None;
      StreamData (text ["a"; "b"]%string);
      GetObjectCb (inr (text ["a"; "b"; "c"]%string));
      StreamData (text [""; "c"; "d"; ""]%string); StreamEnd;
      PapertrailConnect; PutObjectCb None]).2
  = [NewS3 (s3_region (s3 cfg0));
     S3GetObject (s3_bucket (s3 cfg0)) (s3_path (s3 cfg0));
     KmsDecrypt (Buffer_from (sftp_password (sftp cfg0)) "base64");
     SftpConnect (setPassword (sftp cfg0) (lit "p"));
     SftpGet (sftp_path (sftp cfg0));
     SftpEnd;
     S3PutObject (text ["a"; "b"; "c"; "d"]%string) (s3_bucket (s3 cfg0)) (s3_path (s3 cfg0));
     PapertrailOpen (papertrail cfg0);
     LoggerInfo (lit "d");
     LoggerClose;
     Callback (inr [(); ()])]
  ∧ (run cfg0 (handler false cfg0 true)
       [ConnectSettled None; GetObjectCb (inl (err "NoSuchKey")); GetSettled None;
        StreamData (lit "x"); StreamEnd; PutObjectCb None]).2
    = [S3GetObject (s3_bucket (s3 cfg0)) (s3_path (s3 cfg0));
       SftpConnect (sftp cfg0);
       SftpGet (sftp_path (sftp cfg0));
       ConsoleWarn (err "NoSuchKey");
       SftpEnd;
       S3PutObject (lit "x") (s3_bucket (s3 cfg0)) (s3_path (s3 cfg0));
       Callback (inr [()])].
Proof. vm_compute. split; reflexivity. Qed.

(** A schedule that stops while an operation is outstanding does not
    complete, and an event of an operation that is not outstanding is no
    schedule. *)
Example completes_not :
  completes false cfg0 false
    (GetObjectCb (inr (lit "a")) :: fetched (text ["a"; "b"]%string) ++ [PutObjectCb None])
  = false
  ∧ completes false cfg0 false
      (GetObjectCb (inr (lit "a")) :: PapertrailConnect :: fetched (text ["a"; "b"]%string)
         ++ [PutObjectCb None; PapertrailConnect])
    = false.
Proof. vm_compute. split; reflexivity. Qed.

(** *** A failure of the remote fetch *)

(** X20: when the decryption, the connection or the request of the file
    fails, in whatever state the run then is, the promise of the remote
    fetch is rejected with that error and the run reports it in the same
    turn; it is the only report, whatever happens afterwards; no save and
    no forward is ever issued and no line is sent; and at no point of the
    run did the chain have the new contents that the diff needs. *)
Theorem fetch_failure_reported isLam cfg s3client pre ev e post :
  fetchFailure (st_stage (run cfg (handler isLam cfg s3client) pre).1) ev e →
  let r := run cfg (handler isLam cfg s3client) (pre ++ ev :: post) in
  (step cfg ev (run cfg (handler isLam cfg s3client) pre).1).2 = [Callback (inl e)]
  ∧ st_new r.1 = Rejected e
  ∧ callbacks r.2 = [inl e]
  ∧ saves r.2 = [] ∧ forwards r.2 = [] ∧ infos r.2 = []
  ∧ st_save r.1 = None ∧ st_forward r.1 = None
  ∧ ∀ es1 es2 new, pre ++ ev :: post = es1 ++ es2 →
      st_new (run cfg (handler isLam cfg s3client) es1).1 ≠ Fulfilled new.
Proof.
  intros Hfail r.
  pose proof (reachable_Inv isLam cfg s3client pre) as HI.
  destruct (step_fetchFailure cfg _ _ ev e HI Hfail) as (Hst & Hnew & Hacts).
  split; [done|].
  assert (st_new r.1 = Rejected e) as Hrej.
  { unfold r. rewrite run_app. cbn [run].
    destruct (step cfg ev (run cfg (handler isLam cfg s3client) pre).1) as [s' acts].
    cbn [fst snd] in *.
    destruct (run_settled cfg post (s', (run cfg (handler isLam cfg s3client) pre).2 ++ acts)
                Hst) as (_ & H2 & _).
    cbn [fst snd] in H2. by rewrite H2. }
  split; [done|]. by apply rejected_fetch.
Qed.

(** Scenario D of the specification, and a file that cannot be read. *)
Lemma fetch_failure_reported_witness :
  (let r := run cfg0 (handler false cfg0 false)
              ([GetObjectCb (inr (lit "a"))]
                 ++ ConnectSettled (Some (err "ECONNREFUSED")) :: [PapertrailConnect]) in
   callbacks r.2 = [inl (err "ECONNREFUSED")] ∧ saves r.2 = [] ∧ infos r.2 = [])
  ∧ (let r := run cfg0 (handler true cfg0 false)
                ([DecryptCb (inr [x70]); ConnectSettled None]
                   ++ GetSettled (Some (err "No such file")) :: [GetObjectCb (inr (lit "a"))]) in
     callbacks r.2 = [inl (err "No such file")] ∧ saves r.2 = [] ∧ infos r.2 = []).
Proof.
  split.
  - destruct (fetch_failure_reported false cfg0 false [GetObjectCb (inr (lit "a"))]
                (ConnectSettled (Some (err "ECONNREFUSED"))) (err "ECONNREFUSED")
                [PapertrailConnect])
      as (_ & _ & Hc & Hs & _ & Hi & _).
    + right. left. split; reflexivity.
    + by repeat split.
  - destruct (fetch_failure_reported true cfg0 false [DecryptCb (inr [x70]); ConnectSettled None]
                (GetSettled (Some (err "No such file"))) (err "No such file")
                [GetObjectCb (inr (lit "a"))])
      as (_ & _ & Hc & Hs & _ & Hi & _).
    + right. right. split; reflexivity.
    + by repeat split.
Defined.
